(** * pantracks: the BigTracks reader, sub-frame interpolation and diagnostics

    A shallow embedding of [pantracks/bigtracks.py].

    Modelling conventions.
    - The stored table is a list of [TrackPoint] rows in physical order.
      Frame numbers and particle identifiers are integer-valued (they are
      stored as floats holding integers), so both are [Z]; a stored frame
      number is an integer a 32-bit float can hold, and a frame number
      compared with the column is rounded to one.  The measured columns
      [x], [y], [intensity], [rg2] are exact rationals: rounding of their
      arithmetic is not modelled, and stored cells are finite.
    - A requested frame number [fnum] is any rational.
    - Python exceptions are values of [exn]; a method is a function from
      the state (the [BigTracks] object and the process-wide file
      [World]) to an outcome and a new state.  The state survives a
      raised exception, as it does in Python.
    - [RuntimeError] is the spec's AlreadyOpen, [IOError] its CorruptFile,
      [IndexError] its FrameNotFound and [ValueError] its OutOfRange. *)

From Stdlib Require Import ZArith QArith Qround List Bool String Lia FinFun.
Import ListNotations.
Open Scope Z_scope.

(** ** Exceptions and the method monad *)

Inductive exn : Type :=
| RuntimeError | IOError | IndexError | ValueError | TypeError
| HDF5ExtError | AttributeError.

(** ** The stored table and data frames *)

(** The integer nearest to [z] that has at most [p] significant bits,
    ties going to the even neighbour: what converting an integer to a
    binary float with a [p]-bit significand gives. *)
Definition round_to (p : Z) (z : Z) : Z :=
  let a := Z.abs z in
  if a <? 2 ^ p then z
  else
    let k := Z.log2 a + 1 - p in
    let q := a / 2 ^ k in
    let r := a mod 2 ^ k in
    let half := 2 ^ (k - 1) in
    let q' := if (half <? r) || ((r =? half) && Z.odd q) then q + 1 else q in
    Z.sgn z * (q' * 2 ^ k).

(** The largest finite 32-bit float. *)
Definition float32_max : Z := (2 ^ 24 - 1) * 2 ^ 104.

(** The [Float32Col] cell that holds the frame number [z]: [z] rounded
    to a 24-bit significand.  Stored cells are finite, so a number past
    the largest float stands for that float. *)
Definition float32 (z : Z) : Z :=
  let v := round_to 24 z in
  if Z.abs v <=? float32_max then v else Z.sgn z * float32_max.

(** An integer constant of a condition, as it is compared with a
    [Float32Col]: converted to a double and from there to a 32-bit
    float.  Past the largest float it equals no stored cell. *)
Definition float32_of_int (n : Z) : Z := round_to 24 (round_to 53 n).

(** [TrackPoint]: one stored row (bigtracks_writer.py, class TrackPoint).
    The frame column is a 32-bit float holding an integer. *)
Record TrackPoint : Type := mkTrackPoint {
  frame_written : Z; tp_particle : Z;
  tp_x : Q; tp_y : Q; tp_intensity : Q; tp_rg2 : Q }.

(** [row['frame']]: the stored cell. *)
Definition tp_frame (r : TrackPoint) : Z := float32 (frame_written r).

(** A row of a [pandas.DataFrame] built from table rows.  The [frame]
    cell is rational because interpolation overwrites it with [fnum]. *)
Record Row : Type := mkRow {
  frame : Q; particle : Z; x : Q; y : Q; intensity : Q; rg2 : Q }.

(** Rows in positional order; the default index is the position. *)
Definition DataFrame : Type := list Row.

(** [pandas.DataFrame(rows)] of a structured array of table rows. *)
Definition DataFrame_of (rows : list TrackPoint) : DataFrame :=
  map (fun r => mkRow (inject_Z (tp_frame r)) (tp_particle r)
                      (tp_x r) (tp_y r) (tp_intensity r) (tp_rg2 r)) rows.

(** ** Files, handles and the reader object *)

Definition handle : Type := nat.

(** What [tables.openFile] finds at a path. *)
Inductive file : Type :=
| Unreadable                          (* openFile raises HDF5ExtError *)
| NoTable                             (* opens, but root.bigtracks is absent *)
| Tracks (rows : list TrackPoint).    (* opens, root.bigtracks is the table *)

Inductive event : Type := Opened (h : handle) | Closed (h : handle).

Record World : Type := mkWorld {
  disk : string -> file;     (* persisted files, by path *)
  live : list handle;        (* handles currently open *)
  trace : list event }.      (* newest first *)

(** Fields of a [BigTracks] instance. *)
Record BigTracks : Type := mkBigTracks {
  filename : string;
  _openfile : option handle;
  table : option (list TrackPoint) }.

Record State : Type := mkState { self : BigTracks; world : World }.

(** [BigTracks.__init__]: does not open the file. *)
Definition __init__ (fname : string) : BigTracks :=
  mkBigTracks fname None None.

Definition M (A : Type) : Type := State -> (exn + A) * State.

Definition ret {A} (a : A) : M A := fun s => (inr a, s).
Definition raise {A} (e : exn) : M A := fun s => (inl e, s).
Definition bind {A B} (m : M A) (k : A -> M B) : M B :=
  fun s => match m s with
           | (inl e, s1) => (inl e, s1)
           | (inr a, s1) => k a s1
           end.

Notation "x <- m ;; k" := (bind m (fun x => k))
  (at level 61, m at next level, right associativity).
Notation "' p <- m ;; k" := (bind m (fun v => match v with p => k end))
  (at level 61, p pattern, m at next level, right associativity).

(** ** The storage engine boundary (PyTables) *)

Definition fresh (w : World) : handle := List.length (trace w).

(** [tables.openFile(path, 'r')]. *)
Definition openFile (path : string) (w : World) : (exn + handle) * World :=
  match disk w path with
  | Unreadable => (inl HDF5ExtError, w)
  | _ => let h := fresh w in
         (inr h, mkWorld (disk w) (h :: live w) (Opened h :: trace w))
  end.

(** [handle.root.bigtracks]. *)
Definition root_bigtracks (path : string) (w : World) : exn + list TrackPoint :=
  match disk w path with
  | Tracks rows => inr rows
  | _ => inl AttributeError
  end.

(** [handle.close()]. *)
Definition close (h : handle) (w : World) : World :=
  mkWorld (disk w) (filter (fun h' => negb (Nat.eqb h' h)) (live w))
          (Closed h :: trace w).

(** ** BigTracks: the session protocol *)

(** [BigTracks.__enter__] (lines 54-74). *)
Definition __enter__ : M unit := fun s =>
  let bt := self s in
  match _openfile bt with
  | Some _ => (inl RuntimeError, s)
  | None =>
      match openFile (filename bt) (world s) with
      | (inl _, w1) =>
          (* HDF5ExtError becomes IOError; nothing was opened *)
          (inl IOError, mkState bt w1)
      | (inr h, w1) =>
          match root_bigtracks (filename bt) w1 with
          | inl _ =>
              (* AttributeError becomes IOError; the handler closes h *)
              (inl IOError,
               mkState (mkBigTracks (filename bt) None None) (close h w1))
          | inr rows =>
              (inr tt,
               mkState (mkBigTracks (filename bt) (Some h) (Some rows)) w1)
          end
      end
  end.

(** [BigTracks.__exit__] (lines 75-79). *)
Definition __exit__ : M unit := fun s =>
  let bt := self s in
  match _openfile bt with
  | Some h =>
      (inr tt, mkState (mkBigTracks (filename bt) None None) (close h (world s)))
  | None => (inr tt, s)
  end.

(** [with self: body]: enter, run the body, always exit, and let the
    body's outcome (value or exception) through. *)
Definition with_self {A} (body : M A) : M A := fun s =>
  match __enter__ s with
  | (inl e, s1) => (inl e, s1)
  | (inr _, s1) =>
      let (r, s2) := body s1 in
      let (_, s3) := __exit__ s2 in
      (r, s3)
  end.

(** [BigTracks._open_tracks] (lines 80-88). *)
Definition _open_tracks {A} (body : M A) : M A := fun s =>
  match _openfile (self s) with
  | Some _ => body s
  | None => with_self body s
  end.

(** [self.table], as used inside a method body. *)
Definition the_table : M (list TrackPoint) := fun s =>
  match table (self s) with
  | Some rows => (inr rows, s)
  | None => (inl AttributeError, s)
  end.

(** ** Python and NumPy primitives *)

(** ['%i' % fnum]: integer formatting truncates toward zero. *)
Definition format_i (fnum : Q) : Z := Z.quot (Qnum fnum) (Zpos (Qden fnum)).

(** [fnum % 1]: Python's remainder takes the sign of the divisor. *)
Definition mod1 (fnum : Q) : Q := fnum - inject_Z (Qfloor fnum).

(** Truth value of a number: zero is false. *)
Definition truthy (q : Q) : bool := negb (Qeq_bool q 0).

(** [len(seq)]. *)
Definition len {A} (l : list A) : Z := Z.of_nat (List.length l).

(** [seq[i]]: a negative index counts from the end; out of range raises
    IndexError. *)
Definition getitem_seq {A} (l : list A) (i : Z) : exn + A :=
  let j := if i <? 0 then i + len l else i in
  if (j <? 0) || (len l <=? j) then inl IndexError
  else match nth_error l (Z.to_nat j) with
       | Some a => inr a
       | None => inl IndexError
       end.

(** [np.arange(start, stop)] with step 1. *)
Definition arange (start stop : Z) : list Z :=
  map (fun k => start + Z.of_nat k) (seq 0 (Z.to_nat (stop - start))).

(** [frames.searchsorted(v)] (side 'left') on an ascending array: the
    number of elements strictly below [v]. *)
Definition searchsorted (frames : list Z) (v : Q) : Z :=
  len (filter (fun f => if Qlt_le_dec (inject_Z f) v then true else false)
              frames).

(** Every [k]-th element, the next one taken after skipping [c]. *)
Fixpoint stride_from {A} (k c : nat) (l : list A) : list A :=
  match l with
  | [] => []
  | a :: t => match c with
              | O => a :: stride_from k (k - 1) t
              | S c' => stride_from k c' t
              end
  end.

(** [seq[::k]]: a zero step raises ValueError, a negative one walks
    backwards from the last element. *)
Definition slice_step {A} (l : list A) (k : Z) : exn + list A :=
  if k =? 0 then inl ValueError
  else if 0 <? k then inr (stride_from (Z.to_nat k) 0 l)
  else inr (stride_from (Z.to_nat (- k)) 0 (rev l)).

(** A bound method that takes no argument besides [self]: Python checks
    the positional arguments against the signature before the body runs. *)
Definition call0 {A} (method : M A) (args : list Q) : M A :=
  match args with
  | [] => method
  | _ :: _ => raise TypeError
  end.

(** ** BigTracks: the read operations *)

(** [BigTracks.query] (lines 89-96).  The condition string is embedded
    as the row predicate it denotes; [readWhere] keeps the rows that
    satisfy it, in table order. *)
Definition query (cond : TrackPoint -> bool) : M DataFrame :=
  _open_tracks (rows <- the_table ;; ret (DataFrame_of (filter cond rows))).

(** The condition ['(frame == %i)' % fnum]: the integer constant is
    compared with the 32-bit float column as a 32-bit float. *)
Definition frame_eq (fnum : Q) : TrackPoint -> bool :=
  fun r => tp_frame r =? float32_of_int (format_i fnum).

(** [BigTracks.get_frame] (lines 97-99). *)
Definition get_frame (fnum : Q) : M DataFrame := query (frame_eq fnum).

(** [BigTracks.get_all] (lines 100-103). *)
Definition get_all : M DataFrame :=
  _open_tracks (rows <- the_table ;; ret (DataFrame_of rows)).

(** [BigTracks.__getitem__] (lines 104-109). *)
Definition __getitem__ (fnum : Q) : M DataFrame :=
  ftr <- get_frame fnum ;;
  if negb (len ftr =? 0) then ret ftr else raise IndexError.

(** [table[i]['frame']] inside a method body. *)
Definition table_frame (i : Z) : M Z := fun s =>
  match the_table s with
  | (inl e, s1) => (inl e, s1)
  | (inr rows, s1) =>
      match getitem_seq rows i with
      | inl e => (inl e, s1)
      | inr r => (inr (tp_frame r), s1)
      end
  end.

(** [BigTracks.maxframe] (lines 110-113). *)
Definition maxframe : M Z := _open_tracks (table_frame (-1)).

(** [BigTracks.framerange] (lines 114-119). *)
Definition framerange : M (list Z) :=
  _open_tracks (first <- table_frame 0 ;;
                last <- table_frame (-1) ;;
                ret (arange first (last + 1))).

(** ** Label-aligned columns (pandas Series) *)

(** A column indexed by particle: labels in row order, a cell being
    [None] where pandas holds NaN. *)
Definition Series : Type := list (Z * option Q).

(** [df.set_index('particle')[col]]. *)
Definition column (col : Row -> Q) (df : DataFrame) : Series :=
  map (fun r => (particle r, Some (col r))) df.

Definition labels (s : Series) : list Z := map fst s.

Definition mem (p : Z) (l : list Z) : bool := existsb (Z.eqb p) l.

(** The cell read at label [p]: that of the first row so labelled; NaN
    when the label is absent. *)
Definition cell (p : Z) (s : Series) : option Q :=
  match find (fun c => fst c =? p) s with
  | Some (_, v) => v
  | None => None
  end.

(** All cells labelled [p], in row order. *)
Definition entries (p : Z) (s : Series) : list (option Q) :=
  map snd (filter (fun c => fst c =? p) s).

(** [a op b] on two cells: NaN when either is. *)
Definition on_cells (op : Q -> Q -> Q) (a b : option Q) : option Q :=
  match a, b with
  | Some u, Some v => Some (op u v)
  | _, _ => None
  end.

(** [s.index.equals(t.index)]: the same labels in the same order. *)
Definition same_index (s t : Series) : bool :=
  if list_eq_dec Z.eq_dec (labels s) (labels t) then true else false.

(** [s op t].  Series with equal indexes are combined row by row.
    Otherwise the two are joined on their labels: every row of [s]
    meets every row of [t] with its label, a row of either side whose
    label the other side lacks gets NaN.  (pandas orders the joined
    rows by label; rows of one label keep the order given here.) *)
Definition aligned (op : Q -> Q -> Q) (s t : Series) : Series :=
  if same_index s t then
    map (fun cd => (fst (fst cd), on_cells op (snd (fst cd)) (snd (snd cd))))
        (combine s t)
  else
    flat_map (fun c => match entries (fst c) t with
                       | [] => [(fst c, None)]
                       | bs => map (fun b => (fst c, on_cells op (snd c) b)) bs
                       end) s
    ++ map (fun d => (fst d, None))
           (filter (fun d => negb (mem (fst d) (labels s))) t).

(** [s * k] for a scalar [k]. *)
Definition scaled (s : Series) (k : Q) : Series :=
  map (fun c => (fst c, option_map (fun a => a * k)%Q (snd c))) s.

(** [s.count()]: the number of cells that are not NaN. *)
Definition count (s : Series) : Z :=
  len (filter (fun c => match snd c with Some _ => true | None => false end) s).

(** ** interpolate_tracks (lines 121-149) *)

(** The working copy [ftr]: indexed by particle, with [x] and [y] open
    to NaN once the aligned blend has been assigned. *)
Record IRow : Type := mkIRow {
  i_label : Z; i_frame : Q; i_x : option Q; i_y : option Q;
  i_intensity : Q; i_rg2 : Q }.

(** Lines 135-139: the bracketing frames around [fnum]; an IndexError
    from either subscript is re-raised as ValueError. *)
Definition bracket (frames : list Z) (fnum : Q) : exn + (Z * Z) :=
  let fidx := searchsorted frames fnum in
  match getitem_seq frames (fidx - 1) with
  | inl _ => inl ValueError
  | inr fnum0 =>
      match getitem_seq frames fidx with
      | inl _ => inl ValueError
      | inr fnum1 => inr (fnum0, fnum1)
      end
  end.

(** Lines 142-149, on the two snapshots indexed by particle. *)
Definition blend (fnum : Q) (ftr0 ftr1 : DataFrame) : DataFrame :=
  let frac := mod1 fnum in
  (* ftr = ftr0.copy(); ftr.frame = fnum *)
  let xs := aligned Qplus (column x ftr0)
              (scaled (aligned Qminus (column x ftr1) (column x ftr0)) frac) in
  let ys := aligned Qplus (column y ftr0)
              (scaled (aligned Qminus (column y ftr1) (column y ftr0)) frac) in
  (* ftr['x'] = xs; ftr['y'] = ys: cells are taken at ftr's own labels *)
  let ftr := map (fun r => mkIRow (particle r) fnum
                                  (cell (particle r) xs) (cell (particle r) ys)
                                  (intensity r) (rg2 r)) ftr0 in
  (* ftr.dropna(); ftr['particle'] = ftr.index.values; fresh index *)
  flat_map (fun r => match i_x r, i_y r with
                     | Some vx, Some vy =>
                         [mkRow (i_frame r) (i_label r) vx vy
                                (i_intensity r) (i_rg2 r)]
                     | _, _ => []
                     end) ftr.

Definition lift {A} (r : exn + A) : M A := fun s => (r, s).

Definition interpolate_tracks (fnum : Q) : M DataFrame :=
  if negb (truthy (mod1 fnum)) then get_frame fnum
  else
    ' (ftr0, ftr1) <-
      with_self (frames <- call0 framerange [fnum] ;;
                 ' (fnum0, fnum1) <- lift (bracket frames fnum) ;;
                 ftr0 <- get_frame (inject_Z fnum0) ;;
                 ftr1 <- get_frame (inject_Z fnum1) ;;
                 ret (ftr0, ftr1)) ;;
    ret (blend fnum ftr0 ftr1).

(** ** compute_quality (lines 152-176) *)

(** A row of [btq], labelled by frame number. *)
Record QRow : Type := mkQRow { q_frame : Z; N : Z; Nconserved : Z }.

(** [btq.N[fnum] = v] and [btq.Nconserved[fnum] = v]. *)
Definition set_N (fnum v : Z) (btq : list QRow) : list QRow :=
  map (fun r => if q_frame r =? fnum
                then mkQRow (q_frame r) v (Nconserved r) else r) btq.

Definition set_Nconserved (fnum v : Z) (btq : list QRow) : list QRow :=
  map (fun r => if q_frame r =? fnum
                then mkQRow (q_frame r) (N r) v else r) btq.

(** The loop of lines 171-175, threading [ftr0] and [btq]. *)
Fixpoint quality_loop (frames : list Z) (ftr0 : option DataFrame)
         (btq : list QRow) : M (list QRow) :=
  match frames with
  | [] => ret btq
  | fnum :: rest =>
      ftr <- get_frame (inject_Z fnum) ;;
      let ftr0' := match ftr0 with None => ftr | Some f => f end in
      let btq1 := set_N fnum (len ftr) btq in
      let btq2 :=
        set_Nconserved fnum
          (count (aligned Qminus (column frame ftr) (column frame ftr0')))
          btq1 in
      quality_loop rest (Some ftr0') btq2
  end.

Definition compute_quality (frame_interval : Z) : M (list QRow) :=
  with_self (all <- call0 framerange [] ;;
             frames <- lift (slice_step all frame_interval) ;;
             let btq := map (fun f => mkQRow f (-1) (-1)) frames in
             quality_loop frames None btq).

(** ** Vocabulary of the specification *)

(** No session is open on the reader. *)
Definition closed (s : State) : Prop := _openfile (self s) = None.

(** The table [rows] is what a read operation started in [s] will see:
    the session's table when one is open, the file's otherwise. *)
Definition tracks_at (s : State) (rows : list TrackPoint) : Prop :=
  match _openfile (self s) with
  | Some _ => table (self s) = Some rows
  | None => disk (world s) (filename (self s)) = Tracks rows
  end.

(** Truncation toward zero, as the spec words it. *)
Definition toward_zero (q : Q) : Z :=
  if Qle_bool 0 q then Qfloor q else Qceiling q.

(** The snapshot of frame [f]: its rows, in table order. *)
Definition snapshot (f : Z) (rows : list TrackPoint) : DataFrame :=
  DataFrame_of (filter (fun r => tp_frame r =? f) rows).

Definition particles (df : DataFrame) : list Z := map particle df.

(** At most one row per particle in every frame. *)
Definition unique_particles (rows : list TrackPoint) : Prop :=
  forall f, NoDup (particles (snapshot f rows)).


(** The rows an outcome carries; none when it is an exception. *)
Definition rows_of (r : exn + DataFrame) : DataFrame :=
  match r with inr df => df | inl _ => [] end.

(** The read operations of the reader. *)
Inductive read_op : Type :=
| op_get_frame (fnum : Q)
| op_get_all
| op_maxframe
| op_framerange
| op_query (cond : TrackPoint -> bool).

(** The state a read operation leaves behind. *)
Definition after (op : read_op) (s : State) : State :=
  match op with
  | op_get_frame fnum => snd (get_frame fnum s)
  | op_get_all => snd (get_all s)
  | op_maxframe => snd (maxframe s)
  | op_framerange => snd (framerange s)
  | op_query cond => snd (query cond s)
  end.

(** The particles present in a frame, each named once. *)
Definition present (df : DataFrame) : list Z := nodup Z.eq_dec (particles df).

(** The number of particles present in both [df] and [ref]. *)
Definition in_both (df ref : DataFrame) : Z :=
  len (filter (fun p => mem p (particles ref)) (present df)).

(** Particles of [df] that also occur in [ref]. *)
Definition conserved (df ref : DataFrame) : Z :=
  len (filter (fun p => mem p (particles ref)) (particles df)).

(** The row of [df] labelled [p], if any. *)
Definition row_of (p : Z) (df : DataFrame) : option Row :=
  find (fun r => particle r =? p) df.

(** The interpolated row for [r0] of the earlier frame and its partner
    [r1] of the later one: positions blended by [fnum mod 1], [frame]
    set to [fnum], every other column taken from [r0]. *)
Definition blended (fnum : Q) (r0 r1 : Row) : Row :=
  mkRow fnum (particle r0)
        (x r0 + (x r1 - x r0) * mod1 fnum)%Q
        (y r0 + (y r1 - y r0) * mod1 fnum)%Q
        (intensity r0) (rg2 r0).

(** The diagnostics row of frame [f] against the reference snapshot. *)
Definition quality_row (rows : list TrackPoint) (ref : DataFrame) (f : Z)
  : QRow :=
  mkQRow f (len (snapshot f rows)) (conserved (snapshot f rows) ref).

(** The row [btq] starts with for every sampled frame. *)
Definition unset_row (f : Z) : QRow := mkQRow f (-1) (-1).

(** The [i]-th frame sampled from [all] at stride [k]: position [i*k]
    when [k] is positive, and the same walk from the last frame
    backwards when it is negative. *)
Definition sampled (all : list Z) (k : Z) (i : nat) : option Z :=
  nth_error (if 0 <? k then all else rev all) (i * Z.to_nat (Z.abs k)).

(** Every stored frame number lies in the range where a 32-bit float
    holds each integer, and its successor, exactly. *)
Definition exact_frames (rows : list TrackPoint) : Prop :=
  forall r, In r rows -> Z.abs (tp_frame r) < 2 ^ 24.

(** The rows of a frame as [pandas.DataFrame] builds them, spelled out. *)
Definition as_row (tp : TrackPoint) : Row :=
  mkRow (inject_Z (tp_frame tp)) (tp_particle tp)
        (tp_x tp) (tp_y tp) (tp_intensity tp) (tp_rg2 tp).

(** The rows of the table that a comparison with the integer [n] selects. *)
Definition selected (n : Z) (rows : list TrackPoint) : DataFrame :=
  map as_row (filter (fun tp => tp_frame tp =? float32_of_int n) rows).

(** The table an outcome of [compute_quality] carries, if any. *)
Definition table_of (r : exn + list QRow) : list QRow :=
  match r with inr btq => btq | inl _ => [] end.

(** A body that leaves the state alone. *)
Definition pure_body {A} (body : M A) : Prop :=
  forall s, snd (body s) = s.

(** ** Example tables *)

Definition point (f p : Z) (px py : Q) : TrackPoint :=
  mkTrackPoint f p px py 1 (1 # 2).

(** Frames 0, 1, 2; particle 2 is lost after frame 0, particle 4 appears
    in frame 1. *)
Definition demo_rows : list TrackPoint :=
  [ point 0 1 0 0; point 0 2 10 10; point 0 3 5 5;
    point 1 1 2 4; point 1 3 7 9; point 1 4 1 1;
    point 2 1 4 8 ].

(** Frames 5 and 6. *)
Definition late_rows : list TrackPoint :=
  [ point 5 1 0 0; point 5 2 1 1; point 6 1 2 2 ].

(** Three particles in frame 0, two of them again in frame 10. *)
Definition sparse_rows : list TrackPoint :=
  [ point 0 1 0 0; point 0 2 10 10; point 0 3 5 5;
    point 10 1 2 4; point 10 3 7 9 ].

(** Frames 16777216 and 16777218, the neighbours of the first integer
    a 32-bit float cannot hold. *)
Definition big_rows : list TrackPoint :=
  [ point 16777216 1 0 0; point 16777218 1 1 1 ].

(** Particle 1 twice in frame 0; particles 1 and 2 in frame 10. *)
Definition dup_rows : list TrackPoint :=
  [ point 0 1 0 0; point 0 1 10 10; point 0 2 5 5;
    point 10 1 2 4; point 10 2 7 9 ].

(** A fresh reader on a file holding [rows]; nothing is open yet. *)
Definition reader_on (rows : list TrackPoint) : State :=
  mkState (__init__ "output/bigtracks.h5")
          (mkWorld (fun _ => Tracks rows) [] []).

(** The same reader inside a session. *)
Definition session_on (rows : list TrackPoint) : State :=
  snd (__enter__ (reader_on rows)).

(** ** xform.dfcrop *)

(** A crop bound: a number, or one of the infinities the defaults use. *)
Inductive bound : Type := NegInf | Finite (q : Q) | PosInf.

(** [cell > b] and [cell < b] for a finite cell. *)
Definition above (v : Q) (b : bound) : bool :=
  match b with
  | NegInf => true
  | Finite q => if Qlt_le_dec q v then true else false
  | PosInf => false
  end.

Definition below (v : Q) (b : bound) : bool :=
  match b with
  | NegInf => false
  | Finite q => if Qlt_le_dec v q then true else false
  | PosInf => true
  end.

(** The columns a frame can be cropped on ([xcol], [ycol]). *)
Inductive colname : Type :=
| col_frame | col_particle | col_x | col_y | col_intensity | col_rg2.

(** [df[name]], row by row. *)
Definition col_of (name : colname) (r : Row) : Q :=
  match name with
  | col_frame => frame r
  | col_particle => inject_Z (particle r)
  | col_x => x r
  | col_y => y r
  | col_intensity => intensity r
  | col_rg2 => rg2 r
  end.

(** [dfcrop] (xform.py, lines 3-6): the rows selected by the boolean
    mask, in their order.  The rows keep their index labels, which the
    positional model does not record. *)
Definition dfcrop (df : DataFrame) (xmin xmax ymin ymax : bound)
           (xcol ycol : colname) : DataFrame :=
  filter (fun r => above (col_of xcol r) xmin && below (col_of xcol r) xmax
                   && above (col_of ycol r) ymin && below (col_of ycol r) ymax)
         df.

(** ** Further vocabulary *)

(** The exception a read operation ends in, if any. *)
Definition raised (op : read_op) (s : State) : option exn :=
  let err {A} (r : exn + A) :=
    match r with inl e => Some e | inr _ => None end in
  match op with
  | op_get_frame fnum => err (fst (get_frame fnum s))
  | op_get_all => err (fst (get_all s))
  | op_maxframe => err (fst (maxframe s))
  | op_framerange => err (fst (framerange s))
  | op_query cond => err (fst (query cond s))
  end.

(** Read operations one after the other. *)
Definition run_all (ops : list read_op) (s : State) : State :=
  fold_left (fun st op => after op st) ops s.

(** The same operations as the body of a [with] block. *)
Definition in_block (ops : list read_op) : M unit :=
  fun s => (inr tt, run_all ops s).

(** An operation that leaves a reader inside a session as it found it. *)
Definition keeps_session {A} (m : M A) : Prop :=
  forall s h, _openfile (self s) = Some h -> snd (m s) = s.

(** A fresh reader on a file in an arbitrary condition. *)
Definition reader_at (f : file) : State :=
  mkState (__init__ "output/bigtracks.h5") (mkWorld (fun _ => f) [] []).

(** * Properties *)

(** ** Frame numbers as 32-bit floats *)

Lemma round_to_small p z : Z.abs z < 2 ^ p -> round_to p z = z.
Proof.
  intros H. unfold round_to.
  now replace (Z.abs z <? 2 ^ p) with true by (symmetry; now apply Z.ltb_lt).
Qed.

(** Past the small range the shift that rounding makes is at least 1. *)
Lemma round_to_shift p a :
  0 < p -> 2 ^ p <= a ->
  1 <= Z.log2 a + 1 - p /\
  2 ^ (Z.log2 a) <= a < 2 ^ (Z.log2 a + 1 - p) * 2 ^ p.
Proof.
  intros Hp Ha.
  assert (Hpos : 0 < a) by (pose proof (Z.pow_pos_nonneg 2 p); lia).
  pose proof (Z.log2_spec a Hpos) as [Hl Hu].
  pose proof (Z.log2_nonneg a) as Hn.
  assert (HpL : p <= Z.log2 a).
  { destruct (Z_le_gt_dec p (Z.log2 a)) as [|G]; [assumption|].
    assert (2 ^ Z.succ (Z.log2 a) <= 2 ^ p)
      by (apply Z.pow_le_mono_r; lia). lia. }
  split; [lia|]. split; [exact Hl|].
  rewrite <- Z.pow_add_r by lia.
  now replace (Z.log2 a + 1 - p + p) with (Z.succ (Z.log2 a)) by lia.
Qed.

Lemma round_to_exact p m e :
  0 < p -> 0 <= e -> Z.abs m <= 2 ^ p ->
  round_to p (m * 2 ^ e) = m * 2 ^ e.
Proof.
  intros Hp He Hm. unfold round_to.
  assert (H2e : 0 < 2 ^ e) by (apply Z.pow_pos_nonneg; lia).
  assert (Ha : Z.abs (m * 2 ^ e) = Z.abs m * 2 ^ e)
    by (rewrite Z.abs_mul, (Z.abs_eq (2 ^ e)); lia).
  destruct (Z.abs (m * 2 ^ e) <? 2 ^ p) eqn:E; [reflexivity|].
  apply Z.ltb_ge in E. cbv zeta.
  destruct (round_to_shift p _ Hp E) as (Hk & Hl & Hu).
  set (a := Z.abs (m * 2 ^ e)) in *.
  set (k := Z.log2 a + 1 - p) in *.
  assert (H2k : 0 < 2 ^ k) by (apply Z.pow_pos_nonneg; lia).
  assert (Hdiv : exists c, a = c * 2 ^ k).
  { destruct (Z_lt_le_dec (Z.abs m) (2 ^ p)) as [Hlt|Hge].
    - assert (Hke : k <= e).
      { assert (H1 : 2 ^ (Z.log2 a) < 2 ^ (p + e)).
        { rewrite Z.pow_add_r by lia. nia. }
        apply Z.pow_lt_mono_r_iff in H1; lia. }
      exists (Z.abs m * 2 ^ (e - k)). rewrite Ha, <- Z.mul_assoc.
      rewrite <- Z.pow_add_r by lia. now replace (e - k + k) with e by lia.
    - assert (Hm' : Z.abs m = 2 ^ p) by lia.
      assert (Hap : a = 2 ^ (p + e))
        by (rewrite Ha, Hm', Z.pow_add_r; lia).
      assert (Hlog : Z.log2 a = p + e)
        by (rewrite Hap; apply Z.log2_pow2; lia).
      exists (2 ^ (p - 1)). rewrite Hap. unfold k. rewrite Hlog.
      rewrite <- Z.pow_add_r by lia. f_equal. lia. }
  destruct Hdiv as (c & Hc).
  assert (Hr : a mod 2 ^ k = 0) by (rewrite Hc; apply Z_mod_mult).
  assert (Hq : a / 2 ^ k = c) by (rewrite Hc; apply Z_div_mult; lia).
  assert (Hh : 0 < 2 ^ (k - 1)) by (apply Z.pow_pos_nonneg; lia).
  rewrite Hr, Hq.
  replace (2 ^ (k - 1) <? 0) with false by (symmetry; apply Z.ltb_ge; lia).
  replace (0 =? 2 ^ (k - 1)) with false by (symmetry; apply Z.eqb_neq; lia).
  cbn [orb andb]. rewrite <- Hc. unfold a.
  rewrite Z.mul_comm. apply Z.abs_sgn.
Qed.




(** Integers up to 2^24 in magnitude are held exactly. *)
Lemma float32_of_int_exact n : Z.abs n <= 2 ^ 24 -> float32_of_int n = n.
Proof.
  intros H. unfold float32_of_int.
  replace n with (n * 2 ^ 0) by (cbn; lia).
  assert (H53 : Z.abs n <= 2 ^ 53)
    by (apply Z.le_trans with (2 ^ 24); [exact H|apply Z.pow_le_mono_r; lia]).
  rewrite (round_to_exact 53 n 0) by lia.
  apply round_to_exact; lia.
Qed.

(** ** The session protocol *)

Section Session.

Variable s : State.

Lemma enter_when_open h :
  _openfile (self s) = Some h -> __enter__ s = (inl RuntimeError, s).
Proof. intros H. unfold __enter__. now rewrite H. Qed.

Lemma enter_outcome :
  forall r s1, __enter__ s = (r, s1) ->
    match r with
    | inr _ => exists rows,
        _openfile (self s) = None /\
        disk (world s) (filename (self s)) = Tracks rows /\
        s1 = mkState (mkBigTracks (filename (self s))
                                  (Some (fresh (world s))) (Some rows))
                     (mkWorld (disk (world s))
                              (fresh (world s) :: live (world s))
                              (Opened (fresh (world s)) :: trace (world s)))
    | inl e => e = RuntimeError \/ e = IOError
    end.
Proof.
  intros r s1. unfold __enter__, openFile, root_bigtracks.
  destruct (_openfile (self s)) eqn:Ho.
  - intros [= <- <-]. now left.
  - destruct (disk (world s) (filename (self s))) eqn:Hd; cbn; rewrite ?Hd.
    + intros [= <- <-]. now right.
    + intros [= <- <-]. now right.
    + intros [= <- <-]. exists rows. repeat split.
Qed.

Lemma enter_when_closed rows :
  _openfile (self s) = None ->
  disk (world s) (filename (self s)) = Tracks rows ->
  __enter__ s =
    (inr tt,
     mkState (mkBigTracks (filename (self s))
                          (Some (fresh (world s))) (Some rows))
             (mkWorld (disk (world s))
                      (fresh (world s) :: live (world s))
                      (Opened (fresh (world s)) :: trace (world s)))).
Proof.
  intros Ho Hd. unfold __enter__, openFile, root_bigtracks.
  rewrite Ho, Hd. cbn. now rewrite Hd.
Qed.

Lemma open_tracks_in_session {A} (body : M A) h :
  _openfile (self s) = Some h -> _open_tracks body s = body s.
Proof. intros H. unfold _open_tracks. now rewrite H. Qed.

End Session.

Lemma close_drops h w : ~ In h (live (close h w)).
Proof.
  unfold close; cbn. rewrite filter_In. intros [_ H].
  now rewrite Nat.eqb_refl in H.
Qed.

Lemma close_incl h w : incl (live (close h w)) (live w).
Proof. unfold close; cbn. intros a Ha. now apply filter_In in Ha. Qed.

Lemma the_table_pure : pure_body the_table.
Proof. intros s. unfold the_table. now destruct (table (self s)). Qed.

Lemma table_frame_pure i : pure_body (table_frame i).
Proof.
  intros s. unfold table_frame, the_table.
  destruct (table (self s)); cbn; [|reflexivity].
  now destruct (getitem_seq l i).
Qed.

Lemma bind_pure {A B} (m : M A) (k : A -> M B) :
  pure_body m -> (forall a, pure_body (k a)) -> pure_body (m' <- m ;; k m').
Proof.
  intros Hm Hk s. unfold bind. specialize (Hm s).
  destruct (m s) as [[e|a] s1]; cbn in *; subst; [reflexivity|apply Hk].
Qed.

Lemma ret_pure {A} (a : A) : pure_body (ret a).
Proof. now intros s. Qed.

(** What a scoped operation does to a closed reader. *)
Lemma open_tracks_closed {A} (body : M A) s :
  pure_body body -> closed s ->
  let s' := snd (_open_tracks body s) in
  closed s' /\
  incl (live (world s')) (live (world s)) /\
  disk (world s') = disk (world s) /\
  ((disk (world s) (filename (self s)) = Unreadable /\
    trace (world s') = trace (world s)) \/
   exists h, trace (world s') = Closed h :: Opened h :: trace (world s) /\
             ~ In h (live (world s'))).
Proof.
  intros Hb Hc. unfold closed in Hc. unfold _open_tracks, with_self.
  rewrite Hc. unfold __enter__, openFile, root_bigtracks. rewrite Hc.
  destruct (disk (world s) (filename (self s))) eqn:Hd; cbn; rewrite ?Hd.
  - split; [exact Hc|]. split; [apply incl_refl|].
    split; [reflexivity|]. left. split; reflexivity.
  - cbn. rewrite Nat.eqb_refl. cbn. repeat split.
    + intros a Ha. now apply filter_In in Ha.
    + right. eexists. split; [reflexivity|].
      rewrite filter_In. intros [_ H]. now rewrite Nat.eqb_refl in H.
  - match goal with |- context [body ?st] =>
      pose proof (Hb st) as Hp; destruct (body st) as [r s2] end.
    cbn in Hp; subst s2. cbn. rewrite Nat.eqb_refl. cbn. repeat split.
    + intros a Ha. now apply filter_In in Ha.
    + right. eexists. split; [reflexivity|].
      rewrite filter_In. intros [_ H]. now rewrite Nat.eqb_refl in H.
Qed.

Lemma open_tracks_session {A} (body : M A) s h :
  pure_body body -> _openfile (self s) = Some h ->
  snd (_open_tracks body s) = s.
Proof. intros Hb Ho. rewrite (open_tracks_in_session s body h Ho). apply Hb. Qed.

Lemma query_body_pure cond :
  pure_body (rows <- the_table ;; ret (DataFrame_of (filter cond rows))).
Proof. apply bind_pure; [apply the_table_pure|intros; apply ret_pure]. Qed.

Lemma get_all_body_pure :
  pure_body (rows <- the_table ;; ret (DataFrame_of rows)).
Proof. apply bind_pure; [apply the_table_pure|intros; apply ret_pure]. Qed.

Lemma framerange_body_pure :
  pure_body (first <- table_frame 0 ;;
             last <- table_frame (-1) ;;
             ret (arange first (last + 1))).
Proof.
  apply bind_pure; [apply table_frame_pure|intros].
  apply bind_pure; [apply table_frame_pure|intros; apply ret_pure].
Qed.

(** C7.  A reader that has just entered a session refuses a second
    entry with RuntimeError (the spec's AlreadyOpen) and is left exactly
    as it was, as is any reader whose file is open; after the session is
    exited the reader is closed and can be entered again. *)
Theorem nested_session_entry_rejected (s s1 : State) :
  __enter__ s = (inr tt, s1) ->
  __enter__ s1 = (inl RuntimeError, s1) /\
  (forall s' h, _openfile (self s') = Some h ->
                __enter__ s' = (inl RuntimeError, s')) /\
  exists s2, __exit__ s1 = (inr tt, s2) /\ closed s2 /\
    exists s3 h, __enter__ s2 = (inr tt, s3) /\ _openfile (self s3) = Some h.
Proof.
  intros He. destruct (enter_outcome s _ _ He) as (rows & Ho & Hd & ->).
  split; [|split].
  - now apply enter_when_open with (h := fresh (world s)).
  - intros s' h. apply enter_when_open.
  - unfold __exit__; cbn. eexists. split; [reflexivity|]. split; [reflexivity|].
    eexists. eexists.
    split; [now apply enter_when_closed with (rows := rows)|reflexivity].
Qed.

Lemma nested_session_entry_rejected_witness :
  __enter__ (session_on demo_rows) = (inl RuntimeError, session_on demo_rows).
Proof.
  apply (nested_session_entry_rejected (reader_on demo_rows)
                                       (session_on demo_rows)).
  reflexivity.
Defined.

(** C8.  A read operation started on a closed reader returns with the
    reader closed: unless the file cannot be opened at all, the trace
    grows by exactly one open and the matching close of the same handle,
    which is no longer live; no other handle is opened.  Started inside
    a session, the operation leaves the whole state, handle included, as
    it found it. *)
Theorem read_ops_are_call_scoped (op : read_op) (s : State) :
  (closed s ->
   closed (after op s) /\
   incl (live (world (after op s))) (live (world s)) /\
   disk (world (after op s)) = disk (world s) /\
   ((disk (world s) (filename (self s)) = Unreadable /\
     trace (world (after op s)) = trace (world s)) \/
    exists h,
      trace (world (after op s)) = Closed h :: Opened h :: trace (world s) /\
      ~ In h (live (world (after op s))))) /\
  (forall h, _openfile (self s) = Some h -> after op s = s).
Proof.
  split.
  - intros Hc. destruct op; cbn [after].
    + apply open_tracks_closed; [apply query_body_pure|exact Hc].
    + apply open_tracks_closed; [apply get_all_body_pure|exact Hc].
    + apply open_tracks_closed; [apply table_frame_pure|exact Hc].
    + apply open_tracks_closed; [apply framerange_body_pure|exact Hc].
    + apply open_tracks_closed; [apply query_body_pure|exact Hc].
  - intros h Ho. destruct op; cbn [after].
    + apply open_tracks_session with (h := h); [apply query_body_pure|exact Ho].
    + apply open_tracks_session with (h := h); [apply get_all_body_pure|exact Ho].
    + apply open_tracks_session with (h := h); [apply table_frame_pure|exact Ho].
    + apply open_tracks_session with (h := h); [apply framerange_body_pure|exact Ho].
    + apply open_tracks_session with (h := h); [apply query_body_pure|exact Ho].
Qed.

Lemma read_ops_are_call_scoped_witness :
  closed (after (op_get_frame 1) (reader_on demo_rows)) /\
  after op_maxframe (session_on demo_rows) = session_on demo_rows.
Proof.
  split.
  - apply (proj1 (read_ops_are_call_scoped (op_get_frame 1)
                                           (reader_on demo_rows))).
    reflexivity.
  - apply (proj2 (read_ops_are_call_scoped op_maxframe
                                           (session_on demo_rows)) 0%nat).
    reflexivity.
Defined.

(** ** Frame lookup *)

Lemma query_tracks cond s rows :
  tracks_at s rows ->
  fst (query cond s) = inr (DataFrame_of (filter cond rows)).
Proof.
  unfold tracks_at, query, _open_tracks, with_self.
  destruct (_openfile (self s)) eqn:Ho; intros Ht.
  - unfold bind, the_table. now rewrite Ht.
  - rewrite (enter_when_closed s rows Ho Ht). reflexivity.
Qed.

Lemma query_errors cond s e :
  fst (query cond s) = inl e -> e = IOError \/ e = AttributeError.
Proof.
  unfold query, _open_tracks, with_self.
  destruct (_openfile (self s)) eqn:Ho.
  - unfold bind, the_table. destruct (table (self s)); cbn.
    + discriminate.
    + intros [= <-]. now right.
  - destruct (__enter__ s) as [[e'|u] s1] eqn:He; [|destruct u].
    + cbn. intros [= <-].
      destruct (enter_outcome s _ _ He) as [-> | ->]; [|now left].
      unfold __enter__ in He. rewrite Ho in He.
      destruct (openFile _ _) as [[?|?] ?]; [discriminate|].
      destruct (root_bigtracks _ _); discriminate.
    + destruct (enter_outcome s _ _ He) as (rows & _ & _ & ->).
      cbn. discriminate.
Qed.

Lemma format_i_toward_zero fnum : format_i fnum = toward_zero fnum.
Proof.
  destruct fnum as [n d]. unfold format_i, toward_zero, Qle_bool, Qfloor, Qceiling.
  cbn. rewrite Z.mul_1_r.
  destruct (0 <=? n) eqn:Hn.
  - apply Z.leb_le in Hn. apply Z.quot_div_nonneg; lia.
  - apply Z.leb_gt in Hn.
    rewrite <- (Z.opp_involutive n) at 1. rewrite Z.quot_opp_l by lia.
    f_equal. apply Z.quot_div_nonneg; lia.
Qed.

Lemma get_frame_tracks fnum s rows :
  tracks_at s rows ->
  fst (get_frame fnum s) = inr (DataFrame_of (filter (frame_eq fnum) rows)).
Proof.
  intros Ht. unfold get_frame. now rewrite (query_tracks _ s rows Ht).
Qed.


Lemma selected_exact n rows :
  Z.abs n <= 2 ^ 24 -> selected n rows = snapshot n rows.
Proof.
  intros H. unfold selected, snapshot, DataFrame_of.
  now rewrite (float32_of_int_exact n H).
Qed.

Lemma get_frame_selected fnum s rows :
  tracks_at s rows ->
  fst (get_frame fnum s) = inr (selected (format_i fnum) rows).
Proof. intros Ht. now rewrite (get_frame_tracks fnum s rows Ht). Qed.

(** C10.  [get_frame] formats [fnum] as an integer, which truncates it
    toward zero, before matching: it returns, converted row by row, the
    stored rows whose frame equals that integer as the 32-bit float
    column holds it, which for an integer up to 2^24 in magnitude are
    the rows of that integer frame. *)
Theorem get_frame_truncates (fnum : Q) (s : State) (rows : list TrackPoint) :
  tracks_at s rows ->
  fst (get_frame fnum s) =
    inr (map (fun tp => mkRow (inject_Z (tp_frame tp)) (tp_particle tp)
                              (tp_x tp) (tp_y tp) (tp_intensity tp) (tp_rg2 tp))
             (filter (fun tp => tp_frame tp =? float32_of_int (toward_zero fnum))
                     rows)) /\
  (Z.abs (toward_zero fnum) <= 2 ^ 24 ->
   fst (get_frame fnum s) = inr (snapshot (toward_zero fnum) rows)).
Proof.
  intros Ht. rewrite (get_frame_selected fnum s rows Ht).
  rewrite format_i_toward_zero. split; [reflexivity|].
  intros H. now rewrite (selected_exact _ rows H).
Qed.

Lemma get_frame_truncates_witness :
  fst (get_frame (57 # 10) (reader_on late_rows)) =
  inr (snapshot 5 late_rows).
Proof.
  apply (proj2 (get_frame_truncates (57 # 10) (reader_on late_rows) late_rows
                                    eq_refl)).
  vm_compute. discriminate.
Defined.

(** C6.  Indexed access raises IndexError (the spec's FrameNotFound)
    exactly when [get_frame] returns no rows and otherwise behaves as
    [get_frame]; [get_frame] itself never raises IndexError, and it
    returns the empty frame when no stored frame equals the requested
    integer as the 32-bit float column holds it, which for an integer
    up to 2^24 in magnitude means whenever that frame is absent. *)
Theorem getitem_raises_iff_empty (fnum : Q) (s : State) :
  (fst (__getitem__ fnum s) = inl IndexError <->
   fst (get_frame fnum s) = inr []) /\
  (forall df, fst (get_frame fnum s) = inr df -> df <> [] ->
              __getitem__ fnum s = get_frame fnum s) /\
  fst (get_frame fnum s) <> inl IndexError /\
  (forall rows, tracks_at s rows ->
     (forall r, In r rows -> tp_frame r <> float32_of_int (format_i fnum)) ->
     fst (get_frame fnum s) = inr []) /\
  (forall rows, tracks_at s rows ->
     Z.abs (format_i fnum) <= 2 ^ 24 ->
     (forall r, In r rows -> tp_frame r <> format_i fnum) ->
     fst (get_frame fnum s) = inr []).
Proof.
  assert (Hne : fst (get_frame fnum s) <> inl IndexError).
  { intros H. apply query_errors in H. destruct H; discriminate. }
  assert (Habs : forall rows, tracks_at s rows ->
     (forall r, In r rows -> tp_frame r <> float32_of_int (format_i fnum)) ->
     fst (get_frame fnum s) = inr []).
  { intros rows Ht Hno. rewrite (get_frame_tracks fnum s rows Ht).
    f_equal. unfold frame_eq.
    replace (filter _ rows) with (@nil TrackPoint); [reflexivity|].
    symmetry. clear Ht. induction rows as [|r rows IH]; [reflexivity|]. cbn.
    destruct (tp_frame r =? float32_of_int (format_i fnum)) eqn:E.
    - apply Z.eqb_eq in E. elim (Hno r); [now left|exact E].
    - apply IH. intros r' Hr'. apply Hno. now right. }
  split; [|split; [|split; [exact Hne|split; [exact Habs|]]]].
  - unfold __getitem__, bind.
    destruct (get_frame fnum s) as [[e|df] s1] eqn:Hg; cbn in *.
    + split; [intros [= ->]; now elim Hne|discriminate].
    + destruct df; cbn; split; try reflexivity; discriminate.
  - intros df Hg Hd. unfold __getitem__, bind.
    destruct (get_frame fnum s) as [[e|df'] s1]; cbn in *; [discriminate|].
    injection Hg as ->. destruct df; [now elim Hd|reflexivity].
  - intros rows Ht Hsmall Hno. apply (Habs rows Ht).
    now rewrite (float32_of_int_exact _ Hsmall).
Qed.

(** C6, beyond 2^24: frame 16777217 is absent from a table holding
    frames 16777216 and 16777218, yet [get_frame] returns a row for it,
    the row of frame 16777216, and indexed access does not raise. *)
Lemma get_frame_absent_frame_not_empty :
  (forall r, In r big_rows -> tp_frame r <> 16777217) /\
  fst (get_frame 16777217 (reader_on big_rows)) =
    inr [mkRow 16777216 1 0 0 1 (1 # 2)] /\
  fst (__getitem__ 16777217 (reader_on big_rows)) =
    inr [mkRow 16777216 1 0 0 1 (1 # 2)].
Proof.
  split; [|split; reflexivity].
  intros r [<-|[<-|[]]]; vm_compute; discriminate.
Qed.

Lemma getitem_raises_iff_empty_witness :
  fst (__getitem__ 7 (reader_on demo_rows)) = inl IndexError.
Proof.
  apply (proj2 (proj1 (getitem_raises_iff_empty 7 (reader_on demo_rows)))).
  reflexivity.
Defined.

(** ** Interpolation *)

(** C3.  When [fnum] has no fractional part, [interpolate_tracks] is
    [get_frame]: same outcome, same rows, same final state. *)
Theorem interpolate_exact_frame (fnum : Q) (s : State) :
  (mod1 fnum == 0)%Q ->
  interpolate_tracks fnum s = get_frame fnum s.
Proof.
  intros H. unfold interpolate_tracks, truthy.
  apply Qeq_bool_iff in H. now rewrite H.
Qed.

Lemma interpolate_exact_frame_witness :
  interpolate_tracks 1 (reader_on demo_rows) = get_frame 1 (reader_on demo_rows).
Proof.
  apply (interpolate_exact_frame 1 (reader_on demo_rows)). reflexivity.
Defined.

(** The call on line 133 passes [fnum] to a method that takes none, so
    the fractional branch ends there whatever the table holds. *)
Lemma interpolate_fractional_never_returns fnum s :
  truthy (mod1 fnum) = true ->
  exists e, fst (interpolate_tracks fnum s) = inl e /\
            (e = RuntimeError \/ e = IOError \/ e = TypeError).
Proof.
  intros Hf. unfold interpolate_tracks. rewrite Hf. cbn [negb].
  unfold bind at 1. unfold with_self.
  destruct (__enter__ s) as [[e|u] s1] eqn:He.
  - exists e. split; [reflexivity|].
    destruct (enter_outcome s _ _ He); auto.
  - exists TypeError. split; [|auto].
    destruct (enter_outcome s _ _ He) as (rows & _ & _ & ->).
    reflexivity.
Qed.

Section Alignment.

Lemma mem_In p l : mem p l = true <-> In p l.
Proof.
  unfold mem. rewrite existsb_exists. split.
  - intros (q & Hq & E). apply Z.eqb_eq in E. now subst.
  - intros H. exists p. split; [exact H|apply Z.eqb_refl].
Qed.

Lemma cell_cons p q v s :
  cell p ((q, v) :: s) = if q =? p then v else cell p s.
Proof. unfold cell. cbn. now destruct (q =? p). Qed.

Lemma cell_entries p t :
  cell p t = match entries p t with b :: _ => b | [] => None end.
Proof.
  unfold entries. induction t as [|[q v] t IH]; [reflexivity|].
  rewrite cell_cons. cbn. now destruct (q =? p).
Qed.

Lemma cell_skip p l rest :
  (forall c, In c l -> fst c <> p) -> cell p (l ++ rest) = cell p rest.
Proof.
  induction l as [|[q v] l IH]; intros H; [reflexivity|].
  cbn [app]. rewrite cell_cons.
  replace (q =? p) with false
    by (symmetry; apply Z.eqb_neq; apply (H (q, v)); now left).
  apply IH. intros c Hc. apply H. now right.
Qed.

Lemma cell_all_nan p l :
  (forall c, In c l -> snd c = None) -> cell p l = None.
Proof.
  induction l as [|[q v] l IH]; intros H; [reflexivity|].
  rewrite cell_cons. destruct (q =? p).
  - apply (H (q, v)). now left.
  - apply IH. intros c Hc. apply H. now right.
Qed.

Lemma cell_rowwise op p :
  forall s t, labels s = labels t ->
  cell p (map (fun cd => (fst (fst cd),
                          on_cells op (snd (fst cd)) (snd (snd cd))))
              (combine s t)) =
  on_cells op (cell p s) (cell p t).
Proof.
  induction s as [|[q a] s IH]; intros [|[q' b] t] Hl; try discriminate.
  - reflexivity.
  - cbn in Hl. injection Hl as <- Hl. cbn [combine map fst snd].
    rewrite !cell_cons. destruct (q =? p); [reflexivity|now apply IH].
Qed.

Lemma cell_joined op p t rest :
  (forall c, In c rest -> snd c = None) ->
  forall s,
  cell p (flat_map (fun c => match entries (fst c) t with
                             | [] => [(fst c, None)]
                             | bs => map (fun b => (fst c,
                                                    on_cells op (snd c) b)) bs
                             end) s ++ rest) =
  on_cells op (cell p s) (cell p t).
Proof.
  intros Hrest. induction s as [|[q a] s IH].
  - cbn. rewrite (cell_all_nan p rest Hrest). reflexivity.
  - cbn [flat_map fst snd]. rewrite <- app_assoc, cell_cons.
    destruct (Z.eqb_spec q p) as [->|Hq].
    + rewrite (cell_entries p t).
      destruct (entries p t) as [|b bs]; cbn [map app].
      * rewrite cell_cons, Z.eqb_refl. now destruct a.
      * rewrite cell_cons, Z.eqb_refl. reflexivity.
    + rewrite cell_skip; [exact IH|].
      intros c Hc. destruct (entries q t) as [|b bs].
      * destruct Hc as [<-|[]]. exact Hq.
      * apply in_map_iff in Hc. destruct Hc as (b' & <- & _). exact Hq.
Qed.

Lemma cell_aligned op s t p :
  cell p (aligned op s t) =
  match cell p s, cell p t with
  | Some a, Some b => Some (op a b)
  | _, _ => None
  end.
Proof.
  change (cell p (aligned op s t) = on_cells op (cell p s) (cell p t)).
  unfold aligned, same_index.
  destruct (list_eq_dec Z.eq_dec (labels s) (labels t)) as [E|_].
  - now apply cell_rowwise.
  - apply cell_joined. intros c Hc. apply in_map_iff in Hc.
    now destruct Hc as (d & <- & _).
Qed.

Lemma cell_scaled s k p :
  cell p (scaled s k) = option_map (fun a => a * k)%Q (cell p s).
Proof.
  unfold cell, scaled. induction s as [|[q v] s IH]; [reflexivity|]. cbn.
  destruct (q =? p); [reflexivity|exact IH].
Qed.

Lemma cell_column col df p :
  cell p (column col df) =
  option_map col (find (fun r => particle r =? p) df).
Proof.
  unfold cell, column. induction df as [|r df IH]; [reflexivity|]. cbn.
  destruct (particle r =? p); [reflexivity|exact IH].
Qed.

Lemma flat_map_after_map {A B C} (g : A -> B) (f : B -> list C) l :
  flat_map f (map g l) = flat_map (fun a => f (g a)) l.
Proof. induction l as [|a l IH]; [reflexivity|]. cbn. now rewrite IH. Qed.

End Alignment.

Lemma row_of_In p df r : row_of p df = Some r -> In r df /\ particle r = p.
Proof.
  unfold row_of. intros H. apply find_some in H.
  destruct H as [Hin E]. apply Z.eqb_eq in E. now split.
Qed.

Lemma row_of_None p df : row_of p df = None -> ~ In p (particles df).
Proof.
  unfold row_of, particles. intros H Hin. apply in_map_iff in Hin.
  destruct Hin as (r & <- & Hr).
  pose proof (find_none _ _ H r Hr) as E. cbn in E.
  now rewrite Z.eqb_refl in E.
Qed.

Lemma row_of_unique df r :
  NoDup (particles df) -> In r df -> row_of (particle r) df = Some r.
Proof.
  unfold row_of, particles. induction df as [|a df IH]; [intros _ []|].
  cbn. intros Hnd [->|Hin].
  - now rewrite Z.eqb_refl.
  - inversion Hnd as [|? ? Hna Hnd']; subst.
    destruct (particle a =? particle r) eqn:E; [|now apply IH].
    apply Z.eqb_eq in E. elim Hna. rewrite E. now apply in_map.
Qed.

(** Lines 142-149 in closed form: one candidate per row of the earlier
    frame, kept when its label has a row in the later frame. *)
Lemma blend_rows fnum ftr0 ftr1 :
  blend fnum ftr0 ftr1 =
  flat_map (fun r => match row_of (particle r) ftr0,
                           row_of (particle r) ftr1 with
                     | Some a, Some r1 =>
                         [mkRow fnum (particle r)
                                (x a + (x r1 - x a) * mod1 fnum)%Q
                                (y a + (y r1 - y a) * mod1 fnum)%Q
                                (intensity r) (rg2 r)]
                     | _, _ => []
                     end) ftr0.
Proof.
  unfold blend. rewrite flat_map_after_map. apply flat_map_ext. intros r.
  cbn. rewrite !cell_aligned, !cell_scaled, !cell_aligned, !cell_column.
  fold (row_of (particle r) ftr0). fold (row_of (particle r) ftr1).
  destruct (row_of (particle r) ftr0) as [a|]; cbn; [|reflexivity].
  destruct (row_of (particle r) ftr1) as [r1|]; cbn; reflexivity.
Qed.

Lemma blend_rows_unique fnum ftr0 ftr1 :
  NoDup (particles ftr0) ->
  blend fnum ftr0 ftr1 =
  flat_map (fun r0 => match row_of (particle r0) ftr1 with
                      | Some r1 => [blended fnum r0 r1]
                      | None => []
                      end) ftr0.
Proof.
  intros Hnd. rewrite blend_rows.
  assert (H : forall l, incl l ftr0 ->
    flat_map (fun r => match row_of (particle r) ftr0,
                             row_of (particle r) ftr1 with
                       | Some a, Some r1 =>
                           [mkRow fnum (particle r)
                                  (x a + (x r1 - x a) * mod1 fnum)%Q
                                  (y a + (y r1 - y a) * mod1 fnum)%Q
                                  (intensity r) (rg2 r)]
                       | _, _ => []
                       end) l =
    flat_map (fun r0 => match row_of (particle r0) ftr1 with
                        | Some r1 => [blended fnum r0 r1]
                        | None => []
                        end) l).
  { induction l as [|r l IH]; [reflexivity|]. intros Hl. cbn.
    rewrite (row_of_unique ftr0 r Hnd) by (apply Hl; now left).
    rewrite IH by (intros a Ha; apply Hl; now right). reflexivity. }
  apply H, incl_refl.
Qed.

(** Every interpolated row comes from a particle of both snapshots. *)
Lemma blend_particles fnum ftr0 ftr1 p :
  In p (particles (blend fnum ftr0 ftr1)) ->
  In p (particles ftr0) /\ In p (particles ftr1).
Proof.
  rewrite blend_rows. unfold particles at 1. rewrite in_map_iff.
  intros (r & <- & Hr). apply in_flat_map in Hr. destruct Hr as (r0 & H0 & Hr).
  destruct (row_of (particle r0) ftr0) as [a|]; [|contradiction].
  destruct (row_of (particle r0) ftr1) as [r1|] eqn:E1; [|contradiction].
  destruct Hr as [<-|[]]. cbn. split.
  - unfold particles. now apply in_map.
  - apply row_of_In in E1. destruct E1 as [Hin <-].
    unfold particles. now apply in_map.
Qed.

(** With one row per particle in the earlier frame, a particle of both
    snapshots gets exactly one interpolated row: the blend of its rows. *)
Lemma blend_paired fnum ftr0 ftr1 r0 r1 :
  NoDup (particles ftr0) ->
  In r0 ftr0 -> row_of (particle r0) ftr1 = Some r1 ->
  filter (fun r => particle r =? particle r0) (blend fnum ftr0 ftr1) =
  [blended fnum r0 r1].
Proof.
  intros Hnd Hin Hr1. rewrite (blend_rows_unique _ _ _ Hnd).
  induction ftr0 as [|a l IH]; [contradiction|].
  cbn in Hnd. inversion Hnd as [|? ? Hna Hnd']; subst.
  assert (Hfar : forall l' q, ~ In q (particles l') ->
    filter (fun r => particle r =? q)
      (flat_map (fun r0 => match row_of (particle r0) ftr1 with
                           | Some r1 => [blended fnum r0 r1]
                           | None => []
                           end) l') = []).
  { induction l' as [|b l' IH']; [reflexivity|]. intros q Hq. cbn.
    rewrite filter_app, IH' by (intros H; apply Hq; now right).
    destruct (row_of (particle b) ftr1); [|reflexivity]. cbn.
    destruct (particle b =? q) eqn:E; [|reflexivity].
    apply Z.eqb_eq in E. elim Hq. now left. }
  cbn. rewrite filter_app. destruct Hin as [->|Hin].
  - rewrite Hr1. cbn. rewrite Z.eqb_refl. now rewrite (Hfar l _ Hna).
  - rewrite (IH Hnd' Hin).
    destruct (row_of (particle a) ftr1); [|reflexivity]. cbn.
    destruct (particle a =? particle r0) eqn:E; [|reflexivity].
    apply Z.eqb_eq in E. elim Hna. rewrite E. unfold particles. now apply in_map.
Qed.

(** C4.  A particle present in only one of the two snapshots has no row
    in their interpolation (lines 142-149), and no row in anything
    [interpolate_tracks] returns for a fractional [fnum]. *)
Theorem unpaired_particles_dropped
        (fnum : Q) (ftr0 ftr1 : DataFrame) (p : Z) :
  (In p (particles ftr0) /\ ~ In p (particles ftr1)) \/
  (~ In p (particles ftr0) /\ In p (particles ftr1)) ->
  ~ In p (particles (blend fnum ftr0 ftr1)) /\
  forall s, truthy (mod1 fnum) = true ->
            ~ In p (particles (rows_of (fst (interpolate_tracks fnum s)))).
Proof.
  intros Hone. split.
  - intros Hin. apply blend_particles in Hin. tauto.
  - intros s Hf.
    destruct (interpolate_fractional_never_returns fnum s Hf) as (e & -> & _).
    intros [].
Qed.

Lemma unpaired_particles_dropped_witness :
  ~ In 2 (particles (blend (1 # 2) (snapshot 0 demo_rows)
                           (snapshot 1 demo_rows))).
Proof.
  apply (unpaired_particles_dropped (1 # 2) (snapshot 0 demo_rows)
                                    (snapshot 1 demo_rows) 2).
  left. split.
  - cbn. auto.
  - cbn. intros [H|[H|[H|[]]]]; discriminate H.
Defined.

(** C1.  On a table with frames 0, 1 and 2, where particles 1 and 3 are
    in both frame 0 and frame 1, [interpolate_tracks] at frame 1/2
    raises TypeError and yields no row. *)
Theorem interpolate_between_frames_raises :
  In 1 (particles (snapshot 0 demo_rows)) /\
  In 1 (particles (snapshot 1 demo_rows)) /\
  fst (framerange (session_on demo_rows)) = inr [0; 1; 2] /\
  fst (call0 framerange [1 # 2] (session_on demo_rows)) = inl TypeError /\
  fst (interpolate_tracks (1 # 2) (reader_on demo_rows)) = inl TypeError /\
  rows_of (fst (interpolate_tracks (1 # 2) (reader_on demo_rows))) = [].
Proof. cbn. repeat split; auto. Qed.

(** C2.  On the same table, whose frames run from 0 to 2,
    [interpolate_tracks] raises TypeError, not ValueError, at 5/2 and at
    -1/2.  Given the frame array itself, the lookup of lines 134-139
    raises ValueError above the last frame, but below the first one the
    index -1 wraps around and it returns the last and first frames. *)
Theorem interpolate_out_of_range_raises_TypeError :
  fst (maxframe (reader_on demo_rows)) = inr 2 /\
  fst (interpolate_tracks (5 # 2) (reader_on demo_rows)) = inl TypeError /\
  fst (interpolate_tracks (-1 # 2) (reader_on demo_rows)) = inl TypeError /\
  bracket [0; 1; 2] (5 # 2) = inl ValueError /\
  bracket [0; 1; 2] (-1 # 2) = inr (2, 0).
Proof. vm_compute. repeat split. Qed.

(** ** The frame range *)

Lemma getitem_seq_first {A} (a : A) l : getitem_seq (a :: l) 0 = inr a.
Proof.
  unfold getitem_seq, len. cbn [Z.ltb Z.compare List.length].
  replace (Z.of_nat (S (List.length l)) <=? 0) with false
    by (symmetry; apply Z.leb_gt; lia).
  reflexivity.
Qed.

Lemma getitem_seq_last {A} (a : A) l : getitem_seq (l ++ [a]) (-1) = inr a.
Proof.
  unfold getitem_seq, len. rewrite length_app. cbn [Z.ltb Z.compare List.length].
  replace (-1 + Z.of_nat (List.length l + 1)) with (Z.of_nat (List.length l)) by lia.
  replace (Z.of_nat (List.length l) <? 0) with false
    by (symmetry; apply Z.ltb_ge; lia).
  replace (Z.of_nat (List.length l + 1) <=? Z.of_nat (List.length l)) with false
    by (symmetry; apply Z.leb_gt; lia).
  cbn [orb]. rewrite Nat2Z.id, nth_error_app2 by lia.
  now rewrite Nat.sub_diag.
Qed.

Lemma framerange_tracks s rows :
  tracks_at s rows ->
  fst (framerange s) =
  match getitem_seq rows 0, getitem_seq rows (-1) with
  | inr r0, inr r1 => inr (arange (tp_frame r0) (tp_frame r1 + 1))
  | inl e, _ => inl e
  | inr _, inl e => inl e
  end.
Proof.
  unfold tracks_at, framerange, _open_tracks, with_self.
  destruct (_openfile (self s)) eqn:Ho; intros Ht.
  - unfold bind, table_frame, the_table. rewrite Ht.
    destruct (getitem_seq rows 0); [reflexivity|]. rewrite Ht.
    now destruct (getitem_seq rows (-1)).
  - rewrite (enter_when_closed s rows Ho Ht).
    unfold bind, table_frame, the_table. cbn.
    destruct (getitem_seq rows 0); [reflexivity|]. cbn.
    now destruct (getitem_seq rows (-1)).
Qed.

Lemma maxframe_tracks s rows :
  tracks_at s rows ->
  fst (maxframe s) =
  match getitem_seq rows (-1) with
  | inr r1 => inr (tp_frame r1)
  | inl e => inl e
  end.
Proof.
  unfold tracks_at, maxframe, _open_tracks, with_self.
  destruct (_openfile (self s)) eqn:Ho; intros Ht.
  - unfold table_frame, the_table. rewrite Ht.
    now destruct (getitem_seq rows (-1)).
  - rewrite (enter_when_closed s rows Ho Ht).
    unfold table_frame, the_table. cbn.
    now destruct (getitem_seq rows (-1)).
Qed.


Lemma arange_nth a b k :
  0 <= k < b - a -> nth_error (arange a b) (Z.to_nat k) = Some (a + k).
Proof.
  intros H. unfold arange. rewrite nth_error_map, nth_error_seq.
  replace (Z.to_nat k <? Z.to_nat (b - a))%nat with true
    by (symmetry; apply Nat.ltb_lt; lia).
  cbn. f_equal. lia.
Qed.

Lemma arange_In a b f : In f (arange a b) <-> a <= f < b.
Proof.
  unfold arange. rewrite in_map_iff. split.
  - intros (k & <- & Hk). apply in_seq in Hk. lia.
  - intros H. exists (Z.to_nat (f - a)). split; [lia|].
    apply in_seq. lia.
Qed.




(** ** Diagnostics *)

Lemma format_i_inject f : format_i (inject_Z f) = f.
Proof. unfold format_i. cbn. apply Z.quot_1_r. Qed.

Lemma get_frame_session s h rows f :
  _openfile (self s) = Some h -> table (self s) = Some rows ->
  get_frame (inject_Z f) s = (inr (selected f rows), s).
Proof.
  intros Ho Ht. unfold get_frame, query.
  rewrite (open_tracks_in_session s _ h Ho).
  unfold bind, the_table. rewrite Ht. cbn. unfold ret, selected, frame_eq.
  now rewrite format_i_inject.
Qed.

Lemma framerange_session s h rows :
  _openfile (self s) = Some h -> table (self s) = Some rows ->
  snd (framerange s) = s.
Proof.
  intros Ho _. unfold framerange.
  apply open_tracks_session with (h := h); [apply framerange_body_pure|exact Ho].
Qed.

Lemma labels_column col df : labels (column col df) = particles df.
Proof. unfold labels, column, particles. now rewrite map_map. Qed.

Lemma count_app s t : count (s ++ t) = count s + count t.
Proof. unfold count, len. rewrite filter_app, length_app. lia. Qed.

Lemma count_all_nan l : (forall c, In c l -> snd c = None) -> count l = 0.
Proof.
  induction l as [|c l IH]; intros H; [reflexivity|].
  unfold count in *. cbn [filter]. rewrite (H c) by now left.
  apply IH. intros d Hd. apply H. now right.
Qed.

Lemma count_cons_some p v l : count ((p, Some v) :: l) = 1 + count l.
Proof. unfold count, len. cbn [filter snd List.length]. lia. Qed.

Lemma count_cons_nan p l : count ((p, None) :: l) = count l.
Proof. reflexivity. Qed.

Lemma count_rowwise op (f g : Row -> Q) :
  forall df ref, List.length df = List.length ref ->
  count (map (fun cd => (fst (fst cd),
                         on_cells op (snd (fst cd)) (snd (snd cd))))
             (combine (column f df) (column g ref))) = len df.
Proof.
  induction df as [|r df IH]; intros [|r' ref] Hl; try discriminate.
  - reflexivity.
  - cbn in Hl. injection Hl as Hl. specialize (IH ref Hl).
    change (column f (r :: df)) with ((particle r, Some (f r)) :: column f df).
    change (column g (r' :: ref))
      with ((particle r', Some (g r')) :: column g ref).
    cbn [combine map fst snd on_cells].
    rewrite count_cons_some, IH. unfold len. cbn [List.length]. lia.
Qed.

Lemma entries_column col p df :
  NoDup (particles df) ->
  entries p (column col df) =
  match row_of p df with Some r => [Some (col r)] | None => [] end.
Proof.
  unfold entries, column, row_of, particles.
  induction df as [|r df IH]; intros Hnd; [reflexivity|].
  inversion Hnd as [|? ? Hna Hnd']; subst. cbn.
  destruct (Z.eqb_spec (particle r) p) as [E|E]; cbn.
  - f_equal. specialize (IH Hnd').
    destruct (find (fun r0 => particle r0 =? p) df) as [r1|] eqn:F.
    + apply find_some in F. destruct F as [Hin Hp]. apply Z.eqb_eq in Hp.
      elim Hna. rewrite E, <- Hp. now apply in_map.
    + exact IH.
  - now apply IH.
Qed.

Lemma mem_row_of p df :
  mem p (particles df) =
  match row_of p df with Some _ => true | None => false end.
Proof.
  unfold row_of, mem, particles.
  induction df as [|r df IH]; [reflexivity|]. cbn.
  rewrite (Z.eqb_sym p (particle r)).
  destruct (particle r =? p); [reflexivity|exact IH].
Qed.

Lemma count_joined op (f g : Row -> Q) ref rest :
  NoDup (particles ref) ->
  (forall c, In c rest -> snd c = None) ->
  forall df,
  count (flat_map (fun c => match entries (fst c) (column g ref) with
                            | [] => [(fst c, None)]
                            | bs => map (fun b => (fst c,
                                                   on_cells op (snd c) b)) bs
                            end) (column f df) ++ rest) =
  conserved df ref.
Proof.
  intros Hnd Hrest df. rewrite count_app, (count_all_nan rest Hrest).
  rewrite Z.add_0_r. unfold conserved.
  induction df as [|r df IH]; [reflexivity|].
  change (column f (r :: df)) with ((particle r, Some (f r)) :: column f df).
  change (particles (r :: df)) with (particle r :: particles df).
  cbn [flat_map fst snd filter]. rewrite count_app, IH.
  rewrite (entries_column g (particle r) ref Hnd), (mem_row_of (particle r) ref).
  destruct (row_of (particle r) ref); cbn [map on_cells].
  - rewrite count_cons_some. unfold count, len. cbn [filter List.length]. lia.
  - rewrite count_cons_nan. unfold count, len. cbn [filter List.length]. lia.
Qed.

(** With one row per particle in the reference frame, the alignment
    count of line 175 is the number of particles of the sampled frame
    that also occur in the reference frame. *)
Lemma count_aligned_frames df ref :
  NoDup (particles ref) ->
  count (aligned Qminus (column frame df) (column frame ref)) =
  conserved df ref.
Proof.
  intros Hnd. unfold aligned, same_index.
  destruct (list_eq_dec Z.eq_dec _ _) as [E|_].
  - rewrite !labels_column in E.
    rewrite count_rowwise
      by (unfold particles in E;
          rewrite <- (length_map particle df), E; apply length_map).
    unfold conserved, len. f_equal. f_equal. rewrite <- E.
    rewrite <- (filter_ext_in (fun _ => true)).
    + clear. induction df as [|r l IH]; [reflexivity|]. cbn. now f_equal.
    + intros p Hp. symmetry. now apply mem_In.
  - apply count_joined; [exact Hnd|].
    intros c Hc. apply in_map_iff in Hc. now destruct Hc as (d & <- & _).
Qed.

Lemma stride_from_In {A} k c (l : list A) a :
  In a (stride_from k c l) -> In a l.
Proof.
  revert c. induction l as [|b l IH]; intros c; [intros []|].
  cbn. destruct c; cbn.
  - intros [->|H]; [now left|right; now apply IH in H].
  - intros H. right. now apply IH in H.
Qed.

Lemma stride_from_NoDup {A} k c (l : list A) :
  NoDup l -> NoDup (stride_from k c l).
Proof.
  revert c. induction l as [|b l IH]; intros c Hnd; [constructor|].
  inversion Hnd as [|? ? Hnb Hnd']; subst. cbn. destruct c.
  - constructor; [|now apply IH].
    intros H. apply Hnb. now apply stride_from_In in H.
  - now apply IH.
Qed.

(** [stride_from k 0] keeps the elements at positions 0, k, 2k, ... *)
Lemma stride_from_nth {A} k c (l : list A) i :
  (0 < k)%nat ->
  nth_error (stride_from k c l) i = nth_error l (c + i * k).
Proof.
  intros Hk. revert c i. induction l as [|b l IH]; intros c i.
  - cbn [stride_from].
    replace (nth_error (@nil A) i) with (@None A) by now destruct i.
    now destruct (c + i * k)%nat.
  - cbn. destruct c.
    + destruct i; [reflexivity|]. cbn [nth_error]. rewrite IH.
      replace (0 + S i * k)%nat with (S (k - 1 + i * k)) by lia.
      reflexivity.
    + rewrite IH. reflexivity.
Qed.

Lemma arange_NoDup a b : NoDup (arange a b).
Proof.
  unfold arange. apply Injective_map_NoDup; [|apply seq_NoDup].
  intros i j H. lia.
Qed.

Lemma set_N_elsewhere f v btq :
  ~ In f (map q_frame btq) -> set_N f v btq = btq.
Proof.
  intros H. unfold set_N. rewrite <- (map_id btq) at 2.
  apply map_ext_in. intros r Hr.
  destruct (q_frame r =? f) eqn:E; [|reflexivity].
  apply Z.eqb_eq in E. elim H. rewrite <- E. now apply in_map.
Qed.

Lemma set_Nconserved_elsewhere f v btq :
  ~ In f (map q_frame btq) -> set_Nconserved f v btq = btq.
Proof.
  intros H. unfold set_Nconserved. rewrite <- (map_id btq) at 2.
  apply map_ext_in. intros r Hr.
  destruct (q_frame r =? f) eqn:E; [|reflexivity].
  apply Z.eqb_eq in E. elim H. rewrite <- E. now apply in_map.
Qed.

Lemma set_N_app f v a b : set_N f v (a ++ b) = set_N f v a ++ set_N f v b.
Proof. apply map_app. Qed.

Lemma set_Nconserved_app f v a b :
  set_Nconserved f v (a ++ b) = set_Nconserved f v a ++ set_Nconserved f v b.
Proof. apply map_app. Qed.

Lemma set_N_hit f v n c l :
  set_N f v (mkQRow f n c :: l) = mkQRow f v c :: set_N f v l.
Proof. unfold set_N. cbn. now rewrite Z.eqb_refl. Qed.

Lemma set_Nconserved_hit f v n c l :
  set_Nconserved f v (mkQRow f n c :: l) =
  mkQRow f n v :: set_Nconserved f v l.
Proof. unfold set_Nconserved. cbn. now rewrite Z.eqb_refl. Qed.

Lemma q_frame_quality_rows rows ref l :
  map q_frame (map (quality_row rows ref) l) = l.
Proof. rewrite map_map. cbn. apply map_id. Qed.

Lemma q_frame_unset_rows l : map q_frame (map unset_row l) = l.
Proof. rewrite map_map. cbn. apply map_id. Qed.

Lemma fill_row rows ref f done rest :
  ~ In f done -> ~ In f rest ->
  set_Nconserved f (conserved (snapshot f rows) ref)
    (set_N f (len (snapshot f rows))
       (map (quality_row rows ref) done ++ map unset_row (f :: rest))) =
  map (quality_row rows ref) (done ++ [f]) ++ map unset_row rest.
Proof.
  intros Hd Hr.
  change (map unset_row (f :: rest))
    with (mkQRow f (-1) (-1) :: map unset_row rest).
  rewrite set_N_app, set_N_hit.
  rewrite !set_N_elsewhere
    by (rewrite ?q_frame_quality_rows, ?q_frame_unset_rows; assumption).
  rewrite set_Nconserved_app, set_Nconserved_hit.
  rewrite !set_Nconserved_elsewhere
    by (rewrite ?q_frame_quality_rows, ?q_frame_unset_rows; assumption).
  rewrite map_app, <- app_assoc. reflexivity.
Qed.

Section Loop.

Variables (s : State) (h : handle) (rows : list TrackPoint).
Hypothesis Hopen : _openfile (self s) = Some h.
Hypothesis Htable : table (self s) = Some rows.
Hypothesis Hunique : unique_particles rows.

(** Inside a session, on frame numbers a 32-bit float holds exactly,
    the loop of lines 171-175 fills the row of every frame it visits and
    leaves the state alone; the reference snapshot is the one already
    held or, failing that, the first frame visited. *)
Lemma quality_loop_session :
  forall rest done ftr0,
    NoDup (done ++ rest) ->
    (forall f, In f rest -> Z.abs f <= 2 ^ 24) ->
    (forall g, ftr0 = Some g -> NoDup (particles g)) ->
    let ref := match ftr0 with
               | Some f => f
               | None => match rest with
                         | f :: _ => snapshot f rows
                         | [] => []
                         end
               end in
    quality_loop rest ftr0
      (map (quality_row rows ref) done ++ map unset_row rest) s =
    (inr (map (quality_row rows ref) (done ++ rest)), s).
Proof.
  induction rest as [|f rest IH]; intros done ftr0 Hnd Hex Href.
  - cbn. now rewrite !app_nil_r.
  - assert (Hf_done : ~ In f done).
    { intros H. apply NoDup_remove_2 in Hnd. apply Hnd.
      apply in_or_app. now left. }
    assert (Hf_rest : ~ In f rest).
    { intros H. apply NoDup_remove_2 in Hnd. apply Hnd.
      apply in_or_app. now right. }
    assert (Hnd' : NoDup ((done ++ [f]) ++ rest))
      by (now rewrite <- app_assoc).
    assert (Hex' : forall f', In f' rest -> Z.abs f' <= 2 ^ 24)
      by (intros f' H; apply Hex; now right).
    cbn [quality_loop]. unfold bind.
    rewrite (get_frame_session s h rows f Hopen Htable).
    rewrite (selected_exact f rows) by (apply Hex; now left).
    destruct ftr0 as [g|]; cbv beta iota zeta.
    + rewrite count_aligned_frames by now apply Href.
      rewrite fill_row by assumption.
      rewrite (IH (done ++ [f]) (Some g) Hnd' Hex' Href).
      now rewrite <- app_assoc.
    + rewrite count_aligned_frames by apply Hunique.
      rewrite fill_row by assumption.
      rewrite (IH (done ++ [f]) (Some (snapshot f rows)) Hnd' Hex')
        by (intros g [= <-]; apply Hunique).
      now rewrite <- app_assoc.
Qed.

End Loop.

Lemma conserved_self df : conserved df df = len (particles df).
Proof.
  unfold conserved, len. f_equal. f_equal.
  rewrite <- (filter_ext_in (fun _ => true)).
  - induction (particles df) as [|p l IH]; [reflexivity|]. cbn. now rewrite IH.
  - intros p Hp. symmetry. now apply mem_In.
Qed.

Lemma in_quality_rows rows ref frames r :
  In r (map (quality_row rows ref) frames) ->
  N r = len (particles (snapshot (q_frame r) rows)) /\
  Nconserved r = conserved (snapshot (q_frame r) rows) ref.
Proof.
  rewrite in_map_iff. intros (f & <- & _). cbn.
  unfold len, particles. now rewrite length_map.
Qed.

(** What [compute_quality] returns on a closed reader over a non-empty
    table, for a non-zero interval, when each frame holds a particle
    once and every frame number is below 2^24 in magnitude. *)
Lemma compute_quality_closed_form s rows k :
  closed s ->
  disk (world s) (filename (self s)) = Tracks rows ->
  rows <> [] -> k <> 0 ->
  unique_particles rows -> exact_frames rows ->
  exists all frames s',
    fst (framerange s) = inr all /\
    slice_step all k = inr frames /\
    compute_quality k s =
      (inr (map (quality_row rows
                   match frames with f :: _ => snapshot f rows | [] => [] end)
                frames), s') /\
    disk (world s') = disk (world s) /\ closed s'.
Proof.
  intros Hc Hd Hne Hk Hu Hx.
  destruct (exists_last Hne) as (l & a & E).
  destruct rows as [|r0 rest]; [now elim Hne|].
  set (rows := r0 :: rest) in *.
  set (all := arange (tp_frame r0) (tp_frame a + 1)).
  set (frames := if 0 <? k then stride_from (Z.to_nat k) 0 all
                 else stride_from (Z.to_nat (- k)) 0 (rev all)).
  set (s1 := mkState (mkBigTracks (filename (self s))
                                  (Some (fresh (world s))) (Some rows))
                     (mkWorld (disk (world s))
                              (fresh (world s) :: live (world s))
                              (Opened (fresh (world s)) :: trace (world s)))).
  assert (Hall : forall st, tracks_at st rows -> fst (framerange st) = inr all).
  { intros st Ht. rewrite (framerange_tracks st rows Ht).
    unfold rows at 1. rewrite getitem_seq_first.
    rewrite E, getitem_seq_last. reflexivity. }
  assert (Hfr1 : framerange s1 = (inr all, s1)).
  { rewrite (surjective_pairing (framerange s1)). f_equal.
    - apply Hall. reflexivity.
    - now apply framerange_session with (h := fresh (world s)) (rows := rows). }
  assert (Hslice : slice_step all k = inr frames).
  { unfold slice_step, frames.
    replace (k =? 0) with false by (symmetry; apply Z.eqb_neq; lia).
    now destruct (0 <? k). }
  assert (Hnd : NoDup ([] ++ frames)).
  { unfold frames. cbn [app]. destruct (0 <? k); apply stride_from_NoDup.
    - apply arange_NoDup.
    - apply NoDup_rev, arange_NoDup. }
  assert (Hex : forall f, In f frames -> Z.abs f <= 2 ^ 24).
  { intros f Hf.
    assert (Hin : In f all).
    { unfold frames in Hf. destruct (0 <? k);
        apply stride_from_In in Hf; [exact Hf|now apply in_rev]. }
    apply arange_In in Hin.
    assert (H0 : Z.abs (tp_frame r0) < 2 ^ 24) by (apply Hx; now left).
    assert (Ha : Z.abs (tp_frame a) < 2 ^ 24).
    { apply Hx. rewrite E. apply in_or_app. right. now left. }
    lia. }
  pose proof (quality_loop_session s1 (fresh (world s)) rows
                eq_refl eq_refl Hu frames [] None Hnd Hex
                ltac:(discriminate)) as Hloop.
  cbv zeta in Hloop. cbn [map app] in Hloop.
  exists all, frames. eexists.
  split; [apply Hall; unfold tracks_at; unfold closed in Hc; now rewrite Hc|].
  split; [exact Hslice|]. split.
  - unfold compute_quality, with_self. unfold closed in Hc.
    rewrite (enter_when_closed s rows Hc Hd). fold s1.
    unfold bind at 1. cbn [call0]. rewrite Hfr1.
    unfold bind at 1. unfold lift. rewrite Hslice.
    change (map (fun f => mkQRow f (-1) (-1)) frames)
      with (map unset_row frames).
    unfold DataFrame in Hloop |- *. rewrite Hloop. cbn. reflexivity.
  - split; reflexivity.
Qed.

Lemma slice_step_sampled all k frames i :
  slice_step all k = inr frames -> nth_error frames i = sampled all k i.
Proof.
  unfold slice_step, sampled. destruct (k =? 0) eqn:E0; [discriminate|].
  apply Z.eqb_neq in E0. destruct (0 <? k) eqn:Hpos; intros [= <-].
  - apply Z.ltb_lt in Hpos. rewrite stride_from_nth by lia.
    cbn [Nat.add]. now rewrite Z.abs_eq by lia.
  - apply Z.ltb_ge in Hpos. rewrite stride_from_nth by lia.
    cbn [Nat.add]. now rewrite Z.abs_neq by lia.
Qed.

(** C9.  Started on a closed reader over a non-empty table in which
    each frame holds a particle at most once and every frame number is
    below 2^24 in magnitude, and with a non-zero interval,
    [compute_quality] returns one row for every [frame_interval]-th
    frame of [framerange] (walking backwards from the last frame when
    the interval is negative); each row records as [N] the number of
    particles of its frame and as [Nconserved] the number of those that
    also occur in the first sampled frame, so that the two agree on the
    first sampled frame; the file is left as it was and the reader
    closed.  On three particles in frame 0 and two of them in frame 10,
    at interval 10, it yields N=3, Nconserved=3 for frame 0 and N=2,
    Nconserved=2 for frame 10. *)
Theorem compute_quality_counts :
  (forall (s : State) (rows : list TrackPoint) (frame_interval : Z),
      closed s ->
      disk (world s) (filename (self s)) = Tracks rows ->
      rows <> [] ->
      frame_interval <> 0 ->
      unique_particles rows ->
      exact_frames rows ->
      exists all btq s',
        fst (framerange s) = inr all /\
        compute_quality frame_interval s = (inr btq, s') /\
        (forall i, nth_error (map q_frame btq) i =
                   sampled all frame_interval i) /\
        (forall first, hd_error (map q_frame btq) = Some first ->
           forall r, In r btq ->
             N r = len (present (snapshot (q_frame r) rows)) /\
             Nconserved r =
               in_both (snapshot (q_frame r) rows) (snapshot first rows) /\
             (q_frame r = first -> Nconserved r = N r)) /\
        disk (world s') = disk (world s) /\
        closed s') /\
  fst (compute_quality 10 (reader_on sparse_rows)) =
  inr [mkQRow 0 3 3; mkQRow 10 2 2].
Proof.
  split; [|reflexivity].
  intros s rows k Hc Hd Hne Hk Hu Hx.
  destruct (compute_quality_closed_form s rows k Hc Hd Hne Hk Hu Hx)
    as (all & frames & s' & Hall & Hslice & Hq & Hdisk & Hcl).
  set (ref := match frames with f :: _ => snapshot f rows | [] => [] end) in *.
  exists all, (map (quality_row rows ref) frames), s'.
  split; [exact Hall|]. split; [exact Hq|].
  split; [|split; [|split; assumption]].
  - intros i. rewrite q_frame_quality_rows.
    now apply slice_step_sampled.
  - rewrite q_frame_quality_rows. intros first Hfirst r Hr.
    assert (Href : ref = snapshot first rows).
    { unfold ref. destruct frames as [|f fs]; [discriminate|].
      cbn in Hfirst. now injection Hfirst as ->. }
    destruct (in_quality_rows rows ref frames r Hr) as [HN HC].
    assert (Hp : present (snapshot (q_frame r) rows) =
                 particles (snapshot (q_frame r) rows))
      by (apply nodup_fixed_point, Hu).
    unfold in_both. rewrite Hp, <- Href.
    split; [exact HN|split; [exact HC|]].
    intros <-. rewrite HC, HN, Href. apply conserved_self.
Qed.

Lemma sparse_rows_unique : unique_particles sparse_rows.
Proof.
  intros f. unfold snapshot, sparse_rows, particles.
  change (tp_frame (point 0 1 0 0)) with 0.
  cbn [filter]. change (tp_frame (point 0 1 0 0)) with 0.
  change (tp_frame (point 0 2 10 10)) with 0.
  change (tp_frame (point 0 3 5 5)) with 0.
  change (tp_frame (point 10 1 2 4)) with 10.
  change (tp_frame (point 10 3 7 9)) with 10.
  destruct (Z.eqb_spec 0 f) as [E0|E0], (Z.eqb_spec 10 f) as [E10|E10];
    [exfalso; congruence| | |];
    cbn; repeat constructor; cbn; intuition discriminate.
Defined.

Lemma sparse_rows_exact : exact_frames sparse_rows.
Proof.
  intros r H. repeat (destruct H as [<-|H]; [reflexivity|]).
  destruct H.
Defined.

Lemma compute_quality_counts_witness :
  exists all btq s',
    fst (framerange (reader_on sparse_rows)) = inr all /\
    compute_quality 10 (reader_on sparse_rows) = (inr btq, s') /\
    (forall i, nth_error (map q_frame btq) i = sampled all 10 i) /\
    (forall first, hd_error (map q_frame btq) = Some first ->
       forall r, In r btq ->
         N r = len (present (snapshot (q_frame r) sparse_rows)) /\
         Nconserved r =
           in_both (snapshot (q_frame r) sparse_rows)
                   (snapshot first sparse_rows) /\
         (q_frame r = first -> Nconserved r = N r)) /\
    disk (world s') = disk (world (reader_on sparse_rows)) /\
    closed s'.
Proof.
  apply (proj1 compute_quality_counts (reader_on sparse_rows) sparse_rows 10).
  - reflexivity.
  - reflexivity.
  - discriminate.
  - discriminate.
  - exact sparse_rows_unique.
  - exact sparse_rows_exact.
Defined.

(** C9, the excluded inputs.  A zero interval is refused with
    ValueError, an empty table with IndexError, and a reader already
    inside a session with RuntimeError; none yields a mapping.  With
    particle 1 twice in frame 0, that frame of two particles is recorded
    with N = 3, and frame 10, which shares two particles with it, with
    Nconserved = 3.  With frames 16777216 and 16777218 stored, frame
    16777217, which holds no particle, is recorded with N = 1. *)
Lemma compute_quality_refusals :
  fst (compute_quality 0 (reader_on sparse_rows)) = inl ValueError /\
  fst (compute_quality 10 (reader_on [])) = inl IndexError /\
  fst (compute_quality 10 (session_on sparse_rows)) = inl RuntimeError /\
  (fst (compute_quality 10 (reader_on dup_rows)) =
     inr [mkQRow 0 3 3; mkQRow 10 2 3] /\
   len (present (snapshot 0 dup_rows)) = 2 /\
   in_both (snapshot 10 dup_rows) (snapshot 0 dup_rows) = 2) /\
  (fst (compute_quality 1 (reader_on big_rows)) =
     inr [mkQRow 16777216 1 1; mkQRow 16777217 1 1; mkQRow 16777218 1 1] /\
   len (present (snapshot 16777217 big_rows)) = 0).
Proof. vm_compute. repeat split. Qed.

(** * Further properties of the reader *)

(** ** Leaving and entering sessions *)

(** [__exit__] never raises and always leaves the reader closed; a
    second exit changes nothing. *)
Theorem exit_idempotent (s : State) :
  fst (__exit__ s) = inr tt /\
  closed (snd (__exit__ s)) /\
  __exit__ (snd (__exit__ s)) = (inr tt, snd (__exit__ s)).
Proof.
  unfold __exit__, closed.
  destruct (_openfile (self s)) eqn:Ho; cbn.
  - repeat split.
  - rewrite Ho. repeat split.
Qed.

Lemma enter_failure s e s1 :
  _openfile (self s) = None ->
  __enter__ s = (inl e, s1) ->
  e = IOError /\ closed s1 /\
  disk (world s1) = disk (world s) /\
  incl (live (world s1)) (live (world s)) /\
  (forall rows, disk (world s) (filename (self s)) <> Tracks rows) /\
  (trace (world s1) = trace (world s) \/
   exists h, trace (world s1) = Closed h :: Opened h :: trace (world s) /\
             ~ In h (live (world s1))).
Proof.
  intros Ho. unfold __enter__, openFile, root_bigtracks. rewrite Ho.
  destruct (disk (world s) (filename (self s))) eqn:Hd; cbn; rewrite ?Hd.
  - intros [= <- <-]. cbn. repeat split; auto using incl_refl.
    intros rows; discriminate.
  - intros [= <- <-]. cbn. rewrite Nat.eqb_refl. cbn.
    split; [reflexivity|]. split; [reflexivity|]. split; [reflexivity|].
    split; [intros a Ha; now apply filter_In in Ha|].
    split; [intros rows; discriminate|].
    right. eexists. split; [reflexivity|].
    rewrite filter_In. intros [_ H]. now rewrite Nat.eqb_refl in H.
  - discriminate.
Qed.

(** Entering a session on a file that cannot be parsed, or that lacks
    the bigtracks table, raises IOError and leaves the reader closed:
    the handle opened on the way, if any, has been closed again, and no
    other handle and no file is touched. *)
Theorem enter_corrupt_file (s : State) :
  closed s ->
  (forall rows, disk (world s) (filename (self s)) <> Tracks rows) ->
  fst (__enter__ s) = inl IOError /\
  closed (snd (__enter__ s)) /\
  disk (world (snd (__enter__ s))) = disk (world s) /\
  incl (live (world (snd (__enter__ s)))) (live (world s)) /\
  (trace (world (snd (__enter__ s))) = trace (world s) \/
   exists h,
     trace (world (snd (__enter__ s))) =
       Closed h :: Opened h :: trace (world s) /\
     ~ In h (live (world (snd (__enter__ s))))).
Proof.
  intros Hc Hbad. unfold closed in Hc.
  destruct (__enter__ s) as [[e|u] s1] eqn:He.
  - destruct (enter_failure s e s1 Hc He) as (-> & H1 & H2 & H3 & _ & H4).
    cbn. repeat split; assumption.
  - destruct u. destruct (enter_outcome s _ _ He) as (rows & _ & Hd & _).
    now elim (Hbad rows).
Qed.

Lemma enter_corrupt_file_witness :
  fst (__enter__ (reader_at NoTable)) = inl IOError /\
  closed (snd (__enter__ (reader_at NoTable))).
Proof.
  pose proof (enter_corrupt_file (reader_at NoTable)) as H.
  assert (Hc : closed (reader_at NoTable)) by reflexivity.
  assert (Hb : forall rows,
             disk (world (reader_at NoTable))
                  (filename (self (reader_at NoTable))) <> Tracks rows)
    by (intros rows; discriminate).
  destruct (H Hc Hb) as (H1 & H2 & _). split; assumption.
Defined.

Lemma open_tracks_corrupt {A} (body : M A) s :
  closed s ->
  (forall rows, disk (world s) (filename (self s)) <> Tracks rows) ->
  fst (_open_tracks body s) = inl IOError.
Proof.
  intros Hc Hbad. unfold _open_tracks, with_self. unfold closed in Hc.
  rewrite Hc. destruct (__enter__ s) as [[e|u] s1] eqn:He.
  - destruct (enter_failure s e s1 Hc He) as (-> & _). reflexivity.
  - destruct u. destruct (enter_outcome s _ _ He) as (rows & _ & Hd & _).
    now elim (Hbad rows).
Qed.

(** Every read operation started on a closed reader whose file is
    corrupt raises IOError. *)
Theorem read_ops_corrupt_file (op : read_op) (s : State) :
  closed s ->
  (forall rows, disk (world s) (filename (self s)) <> Tracks rows) ->
  raised op s = Some IOError.
Proof.
  intros Hc Hbad. destruct op; cbn [raised];
    unfold get_frame, query, get_all, maxframe, framerange;
    now rewrite open_tracks_corrupt.
Qed.

Lemma read_ops_corrupt_file_witness :
  raised op_maxframe (reader_at Unreadable) = Some IOError.
Proof.
  apply (read_ops_corrupt_file op_maxframe (reader_at Unreadable)).
  - reflexivity.
  - intros rows; discriminate.
Defined.

(** ** Reading the table *)

Lemma get_all_tracks s rows :
  tracks_at s rows -> fst (get_all s) = inr (DataFrame_of rows).
Proof.
  unfold tracks_at, get_all, _open_tracks, with_self.
  destruct (_openfile (self s)) eqn:Ho; intros Ht.
  - unfold bind, the_table. now rewrite Ht.
  - rewrite (enter_when_closed s rows Ho Ht). reflexivity.
Qed.

(** On an empty table [maxframe] and [framerange] raise IndexError,
    [get_all] and [get_frame] return the empty frame, and indexed access
    raises IndexError for every frame number. *)
Theorem empty_table (s : State) (fnum : Q) :
  tracks_at s [] ->
  fst (maxframe s) = inl IndexError /\
  fst (framerange s) = inl IndexError /\
  fst (get_all s) = inr [] /\
  fst (get_frame fnum s) = inr [] /\
  fst (__getitem__ fnum s) = inl IndexError.
Proof.
  intros Ht.
  assert (Hg : fst (get_frame fnum s) = inr [])
    by (now rewrite (get_frame_tracks fnum s [] Ht)).
  split; [now rewrite (maxframe_tracks s [] Ht)|].
  split; [now rewrite (framerange_tracks s [] Ht)|].
  split; [now rewrite (get_all_tracks s [] Ht)|].
  split; [exact Hg|].
  unfold __getitem__, bind.
  destruct (get_frame fnum s) as [[e|df] s1]; cbn in *.
  - discriminate.
  - injection Hg as ->. reflexivity.
Qed.

Lemma empty_table_witness :
  fst (maxframe (reader_on [])) = inl IndexError.
Proof.
  apply (empty_table (reader_on []) 0). reflexivity.
Defined.

Lemma query_returns cond s df :
  fst (query cond s) = inr df ->
  exists rows, tracks_at s rows /\ df = DataFrame_of (filter cond rows).
Proof.
  unfold tracks_at, query, _open_tracks, with_self.
  destruct (_openfile (self s)) eqn:Ho.
  - unfold bind, the_table. destruct (table (self s)) as [rows|]; cbn.
    + intros [= <-]. now exists rows.
    + discriminate.
  - destruct (__enter__ s) as [[e|u] s1] eqn:He; [discriminate|].
    destruct u. destruct (enter_outcome s _ _ He) as (rows & _ & Hd & ->).
    cbn. intros [= <-]. now exists rows.
Qed.

Lemma in_DataFrame_of r rows :
  In r (DataFrame_of rows) <->
  exists tp, In tp rows /\
             r = mkRow (inject_Z (tp_frame tp)) (tp_particle tp)
                       (tp_x tp) (tp_y tp) (tp_intensity tp) (tp_rg2 tp).
Proof.
  unfold DataFrame_of. rewrite in_map_iff. split.
  - intros (tp & <- & H). now exists tp.
  - intros (tp & H & ->). now exists tp.
Qed.

Lemma inject_Z_inj a b : inject_Z a = inject_Z b -> a = b.
Proof. unfold inject_Z. now intros [= ->]. Qed.

(** [get_frame fnum] returns exactly the rows of [get_all] whose frame
    equals [fnum], truncated toward zero, as the 32-bit float column
    holds that integer. *)
Theorem get_frame_selects_from_get_all
        (fnum : Q) (s : State) (rows : list TrackPoint) (r : Row) :
  tracks_at s rows ->
  (In r (rows_of (fst (get_frame fnum s))) <->
   In r (rows_of (fst (get_all s))) /\
   frame r = inject_Z (float32_of_int (toward_zero fnum))).
Proof.
  intros Ht. rewrite (get_frame_tracks fnum s rows Ht).
  rewrite (get_all_tracks s rows Ht). cbn [rows_of].
  rewrite <- format_i_toward_zero. unfold frame_eq.
  rewrite !in_DataFrame_of. split.
  - intros (tp & Hin & ->). apply filter_In in Hin. destruct Hin as [Hin E].
    apply Z.eqb_eq in E. cbn. split; [now exists tp|now rewrite E].
  - intros [(tp & Hin & ->) E]. cbn in E. apply inject_Z_inj in E.
    exists tp. split; [|reflexivity]. apply filter_In. split; [exact Hin|].
    now apply Z.eqb_eq.
Qed.

Lemma get_frame_selects_from_get_all_witness :
  In (mkRow 16777216 1 0 0 1 (1 # 2))
     (rows_of (fst (get_frame 16777217 (reader_on big_rows)))).
Proof.
  apply (get_frame_selects_from_get_all 16777217 (reader_on big_rows)
           big_rows (mkRow 16777216 1 0 0 1 (1 # 2))).
  - reflexivity.
  - split; [|reflexivity]. cbn. auto.
Defined.

(** Whatever indexed access returns is a non-empty frame, all of whose
    rows carry the requested frame number, truncated toward zero, as the
    32-bit float column holds it: the number itself when it is at most
    2^24 in magnitude. *)
Theorem getitem_returns_the_frame (fnum : Q) (s : State) (df : DataFrame) :
  fst (__getitem__ fnum s) = inr df ->
  df <> [] /\
  (forall r, In r df ->
     frame r = inject_Z (float32_of_int (toward_zero fnum))) /\
  (Z.abs (toward_zero fnum) <= 2 ^ 24 ->
   forall r, In r df -> frame r = inject_Z (toward_zero fnum)).
Proof.
  unfold __getitem__, bind.
  destruct (get_frame fnum s) as [[e|df'] s1] eqn:Hg; cbn; [discriminate|].
  destruct df' as [|r0 df']; cbn; [discriminate|].
  intros [= <-]. split; [discriminate|].
  assert (Hq : fst (query (frame_eq fnum) s) = inr (r0 :: df'))
    by (unfold get_frame in Hg; now rewrite Hg).
  destruct (query_returns _ _ _ Hq) as (rows & _ & E).
  assert (Hall : forall r, In r (r0 :: df') ->
            frame r = inject_Z (float32_of_int (toward_zero fnum))).
  { intros r Hr. rewrite E in Hr. apply in_DataFrame_of in Hr.
    destruct Hr as (tp & Hin & ->). apply filter_In in Hin.
    destruct Hin as [_ Hf]. unfold frame_eq in Hf. apply Z.eqb_eq in Hf.
    cbn. now rewrite Hf, format_i_toward_zero. }
  split; [exact Hall|].
  intros Hsmall r Hr. rewrite (Hall r Hr).
  now rewrite (float32_of_int_exact _ Hsmall).
Qed.

Lemma getitem_returns_the_frame_witness :
  fst (__getitem__ (5 # 2) (reader_on demo_rows)) =
    inr [mkRow 2 1 4 8 1 (1 # 2)] /\
  [mkRow 2 1 4 8 1 (1 # 2)] <> [] /\
  (forall r, In r [mkRow 2 1 4 8 1 (1 # 2)] ->
     frame r = inject_Z (float32_of_int (toward_zero (5 # 2)))) /\
  (Z.abs (toward_zero (5 # 2)) <= 2 ^ 24 ->
   forall r, In r [mkRow 2 1 4 8 1 (1 # 2)] ->
     frame r = inject_Z (toward_zero (5 # 2))).
Proof.
  split; [reflexivity|].
  apply (getitem_returns_the_frame (5 # 2) (reader_on demo_rows)).
  reflexivity.
Defined.



(** ** The bracketing lookup of interpolation (lines 134-139) *)

Lemma below_iff_ceiling f v : (inject_Z f < v)%Q <-> f < Qceiling v.
Proof.
  split.
  - intros H. rewrite Zlt_Qlt.
    apply Qlt_le_trans with (y := v); [exact H|apply Qle_ceiling].
  - intros H. apply Qle_lt_trans with (y := inject_Z (Qceiling v - 1)).
    + rewrite <- Zle_Qle. lia.
    + apply Qceiling_lt.
Qed.

Lemma searchsorted_ceiling frames v :
  searchsorted frames v = len (filter (fun f => f <? Qceiling v) frames).
Proof.
  unfold searchsorted. f_equal. apply filter_ext. intros f.
  destruct (Qlt_le_dec (inject_Z f) v) as [H|H]; symmetry.
  - apply Z.ltb_lt. now apply below_iff_ceiling.
  - apply Z.ltb_ge. destruct (Z_lt_le_dec f (Qceiling v)) as [L|L]; [|exact L].
    apply below_iff_ceiling in L. now apply Qlt_not_le in L.
Qed.

Lemma arange_nil a b : b <= a -> arange a b = [].
Proof.
  intros H. unfold arange. now replace (Z.to_nat (b - a)) with 0%nat by lia.
Qed.

Lemma arange_cons a b : a < b -> arange a b = a :: arange (a + 1) b.
Proof.
  intros H. unfold arange.
  replace (Z.to_nat (b - a)) with (S (Z.to_nat (b - (a + 1)))) by lia.
  cbn [seq map]. f_equal; [lia|].
  rewrite <- seq_shift, map_map. apply map_ext. intros k. lia.
Qed.

Lemma count_below_arange c n :
  forall a b, Z.to_nat (b - a) = n ->
  len (filter (fun f => f <? c) (arange a b)) = Z.max 0 (Z.min b c - a).
Proof.
  induction n as [|n IH]; intros a b Hn.
  - rewrite arange_nil by lia. cbn. lia.
  - rewrite arange_cons by lia. cbn [filter].
    specialize (IH (a + 1) b ltac:(lia)).
    destruct (a <? c) eqn:E.
    + apply Z.ltb_lt in E. unfold len in *. cbn [List.length].
      rewrite Nat2Z.inj_succ, IH. lia.
    + apply Z.ltb_ge in E. rewrite IH. lia.
Qed.

Lemma getitem_seq_nth {A} (l : list A) k a :
  0 <= k -> nth_error l (Z.to_nat k) = Some a -> getitem_seq l k = inr a.
Proof.
  intros Hk Hn. unfold getitem_seq.
  assert (Hlt : (Z.to_nat k < List.length l)%nat)
    by (apply nth_error_Some; now rewrite Hn).
  assert (E0 : (k <? 0) = false) by (apply Z.ltb_ge; lia).
  assert (E1 : (len l <=? k) = false) by (apply Z.leb_gt; unfold len; lia).
  rewrite E0. cbv beta iota zeta. rewrite E0, E1. cbn [orb]. now rewrite Hn.
Qed.

Lemma getitem_seq_arange a b k :
  0 <= k < b - a -> getitem_seq (arange a b) k = inr (a + k).
Proof.
  intros H. apply getitem_seq_nth; [lia|]. now apply arange_nth.
Qed.

(** On a contiguous frame array, a frame number above the first frame
    and not above the last is bracketed by the two adjacent frames
    around it. *)
Theorem bracket_contiguous (lo hi : Z) (fnum : Q) :
  (inject_Z lo < fnum)%Q -> (fnum <= inject_Z hi)%Q ->
  bracket (arange lo (hi + 1)) fnum =
    inr (Qceiling fnum - 1, Qceiling fnum) /\
  (inject_Z (Qceiling fnum - 1) < fnum)%Q /\
  (fnum <= inject_Z (Qceiling fnum))%Q.
Proof.
  intros Hlo Hhi.
  assert (Hc1 : lo < Qceiling fnum) by now apply below_iff_ceiling.
  assert (Hc2 : Qceiling fnum <= hi).
  { rewrite <- (Qceiling_Z hi). now apply Qceiling_resp_le. }
  split; [|split; [apply Qceiling_lt|apply Qle_ceiling]].
  unfold bracket. rewrite searchsorted_ceiling.
  rewrite (count_below_arange _ _ lo (hi + 1) eq_refl).
  replace (Z.max 0 (Z.min (hi + 1) (Qceiling fnum) - lo))
    with (Qceiling fnum - lo) by lia.
  rewrite !getitem_seq_arange by lia.
  f_equal. f_equal; lia.
Qed.

Lemma bracket_contiguous_witness :
  bracket (arange 0 (2 + 1)) (3 # 2) =
    inr (Qceiling (3 # 2) - 1, Qceiling (3 # 2)).
Proof.
  apply (bracket_contiguous 0 2 (3 # 2)); reflexivity || discriminate.
Defined.

(** A frame number above every available frame makes the lookup raise
    ValueError, whatever the frame array. *)
Theorem bracket_above_raises (frames : list Z) (fnum : Q) :
  (forall f, In f frames -> (inject_Z f < fnum)%Q) ->
  bracket frames fnum = inl ValueError.
Proof.
  intros Hall. unfold bracket.
  assert (E : searchsorted frames fnum = len frames).
  { unfold searchsorted. f_equal.
    rewrite (filter_ext_in _ (fun _ => true)).
    - induction frames as [|a l IH]; [reflexivity|]. cbn. f_equal.
      apply IH. intros f Hf. apply Hall. now right.
    - intros f Hf. destruct (Qlt_le_dec (inject_Z f) fnum) as [|H];
        [reflexivity|]. apply Hall in Hf. now apply Qlt_not_le in Hf. }
  rewrite E. destruct (getitem_seq frames (len frames - 1)); [reflexivity|].
  unfold getitem_seq.
  replace (len frames <? 0) with false
    by (symmetry; apply Z.ltb_ge; unfold len; lia).
  rewrite Z.leb_refl, orb_true_r. reflexivity.
Qed.

Lemma bracket_above_raises_witness :
  bracket [0; 1; 2] (5 # 2) = inl ValueError.
Proof.
  apply (bracket_above_raises [0; 1; 2] (5 # 2)).
  intros f [<-|[<-|[<-|[]]]]; reflexivity.
Defined.

(** A frame number not above any available frame does not make the
    lookup raise: the index before position 0 wraps around, and the
    lookup returns the last frame and the first frame. *)
Theorem bracket_below_wraps (frames : list Z) (fnum : Q) :
  frames <> [] ->
  (forall f, In f frames -> (fnum <= inject_Z f)%Q) ->
  bracket frames fnum = inr (last frames 0, hd 0 frames).
Proof.
  intros Hne Hall. unfold bracket.
  assert (E : searchsorted frames fnum = 0).
  { unfold searchsorted.
    rewrite (filter_ext_in _ (fun _ => false)).
    - clear. induction frames as [|a l IH]; [reflexivity|exact IH].
    - intros f Hf. destruct (Qlt_le_dec (inject_Z f) fnum) as [H|];
        [|reflexivity]. apply Hall in Hf. now apply Qlt_not_le in H. }
  rewrite E. destruct (exists_last Hne) as (l & a & ->).
  change (0 - 1) with (-1). rewrite getitem_seq_last, last_last.
  destruct l as [|b l]; cbn [app hd]; now rewrite getitem_seq_first.
Qed.

Lemma bracket_below_wraps_witness :
  bracket [0; 1; 2] (-1 # 2) = inr (last [0; 1; 2] 0, hd 0 [0; 1; 2]).
Proof.
  apply (bracket_below_wraps [0; 1; 2] (-1 # 2)).
  - discriminate.
  - intros f [<-|[<-|[<-|[]]]]; discriminate.
Defined.

(** ** Sessions around the derived operations *)

Lemma keeps_session_open_tracks {A} (body : M A) :
  pure_body body -> keeps_session (_open_tracks body).
Proof. intros Hb s h Ho. now apply open_tracks_session with (h := h). Qed.

Lemma keeps_session_bind {A B} (m : M A) (k : A -> M B) :
  keeps_session m -> (forall a, keeps_session (k a)) ->
  keeps_session (a <- m ;; k a).
Proof.
  intros Hm Hk s h Ho. unfold bind. specialize (Hm s h Ho).
  destruct (m s) as [[e|a] s1]; cbn in *; subst; [reflexivity|].
  now apply (Hk a s h).
Qed.

Lemma keeps_session_get_frame fnum : keeps_session (get_frame fnum).
Proof. apply keeps_session_open_tracks, query_body_pure. Qed.

Lemma keeps_session_framerange : keeps_session framerange.
Proof. apply keeps_session_open_tracks, framerange_body_pure. Qed.

Lemma keeps_session_quality_loop frames :
  forall ftr0 btq, keeps_session (quality_loop frames ftr0 btq).
Proof.
  induction frames as [|f rest IH]; intros ftr0 btq.
  - now intros s h _.
  - cbn [quality_loop]. apply keeps_session_bind.
    + apply keeps_session_get_frame.
    + intros ftr. apply IH.
Qed.

Lemma with_self_closed {A} (body : M A) s :
  keeps_session body -> closed s ->
  let s' := snd (with_self body s) in
  closed s' /\
  incl (live (world s')) (live (world s)) /\
  ((forall rows, disk (world s) (filename (self s)) <> Tracks rows)
   \/ exists rows, disk (world s) (filename (self s)) = Tracks rows) /\
  ((disk (world s) (filename (self s)) = Unreadable /\
    trace (world s') = trace (world s)) \/
   exists h, trace (world s') = Closed h :: Opened h :: trace (world s) /\
             ~ In h (live (world s'))).
Proof.
  intros Hb Hc. unfold closed in Hc. unfold with_self.
  unfold __enter__, openFile, root_bigtracks. rewrite Hc.
  destruct (disk (world s) (filename (self s))) eqn:Hd; cbn; rewrite ?Hd.
  - split; [exact Hc|]. split; [apply incl_refl|].
    split; [left; intros rows; discriminate|]. left. split; reflexivity.
  - cbn. rewrite Nat.eqb_refl. cbn. repeat split.
    + intros a Ha. now apply filter_In in Ha.
    + left; intros rows'; discriminate.
    + right. eexists. split; [reflexivity|].
      rewrite filter_In. intros [_ H]. now rewrite Nat.eqb_refl in H.
  - match goal with |- context [body ?st] =>
      pose proof (Hb st (fresh (world s)) eq_refl) as Hp;
      destruct (body st) as [r s2] end.
    cbn in Hp. subst s2. cbn. rewrite Nat.eqb_refl. cbn. repeat split.
    + intros a Ha. now apply filter_In in Ha.
    + right. now exists rows.
    + right. eexists. split; [reflexivity|].
      rewrite filter_In. intros [_ H]. now rewrite Nat.eqb_refl in H.
Qed.

Lemma with_self_in_session {A} (body : M A) s h :
  _openfile (self s) = Some h -> with_self body s = (inl RuntimeError, s).
Proof.
  intros Ho. unfold with_self. now rewrite (enter_when_open s h Ho).
Qed.

(** [interpolate_tracks] never leaves a file open behind it: started on
    a closed reader it returns with the reader closed, whatever [fnum]
    and whatever the file; unless the file cannot be opened at all, the
    trace has grown by one open and the matching close of the same
    handle, which is no longer live, and no other handle has been
    opened.  Started inside a session it leaves the state as it was,
    and for a fractional [fnum] it raises RuntimeError there, because
    it enters a session of its own. *)
Theorem interpolate_tracks_scoped (fnum : Q) (s : State) :
  (closed s ->
   closed (snd (interpolate_tracks fnum s)) /\
   incl (live (world (snd (interpolate_tracks fnum s)))) (live (world s)) /\
   ((disk (world s) (filename (self s)) = Unreadable /\
     trace (world (snd (interpolate_tracks fnum s))) = trace (world s)) \/
    exists h,
      trace (world (snd (interpolate_tracks fnum s))) =
        Closed h :: Opened h :: trace (world s) /\
      ~ In h (live (world (snd (interpolate_tracks fnum s)))))) /\
  (forall h, _openfile (self s) = Some h ->
     snd (interpolate_tracks fnum s) = s /\
     (truthy (mod1 fnum) = true ->
      fst (interpolate_tracks fnum s) = inl RuntimeError)).
Proof.
  unfold interpolate_tracks. destruct (truthy (mod1 fnum)); cbn [negb]; split.
  - intros Hc.
    match goal with |- context [bind (with_self ?b) ?k s] =>
      assert (E : snd (bind (with_self b) k s) = snd (with_self b s))
        by (unfold bind at 1; destruct (with_self b s) as [[e|[f0 f1]] s1];
            reflexivity);
      rewrite !E;
      assert (Hk : keeps_session b);
      [|destruct (with_self_closed b s Hk Hc) as (H1 & H2 & _ & H3);
        (split; [exact H1|split; [exact H2|exact H3]])] end.
    apply keeps_session_bind; [now intros s0 h _|intros a].
    apply keeps_session_bind; [now intros s0 h _|intros [f0 f1]].
    apply keeps_session_bind; [apply keeps_session_get_frame|intros ftr0].
    apply keeps_session_bind; [apply keeps_session_get_frame|intros ftr1].
    now intros s0 h _.
  - intros h Ho.
    match goal with |- context [bind (with_self ?b) ?k s] =>
      assert (E : bind (with_self b) k s = (inl RuntimeError, s))
        by (unfold bind at 1; now rewrite (with_self_in_session b s h Ho));
      rewrite E end.
    split; reflexivity.
  - intros Hc.
    destruct (open_tracks_closed
                (rows <- the_table ;;
                 ret (DataFrame_of (filter (frame_eq fnum) rows))) s
                (query_body_pure _) Hc) as (H1 & H2 & _ & H3).
    split; [exact H1|split; [exact H2|exact H3]].
  - intros h Ho. split; [|discriminate].
    now apply (keeps_session_get_frame fnum s h).
Qed.

Lemma interpolate_tracks_scoped_witness :
  closed (snd (interpolate_tracks (1 # 2) (reader_on demo_rows))) /\
  fst (interpolate_tracks (1 # 2) (session_on demo_rows)) = inl RuntimeError.
Proof.
  split.
  - apply (proj1 (interpolate_tracks_scoped (1 # 2) (reader_on demo_rows))).
    reflexivity.
  - apply (proj2 (interpolate_tracks_scoped (1 # 2) (session_on demo_rows))
                 0%nat); reflexivity.
Defined.

(** [compute_quality] never leaves a file open behind it: started on a
    closed reader it returns with the reader closed, whatever the
    interval and whatever the file holds; unless the file cannot be
    opened at all, the trace has grown by one open and the matching
    close of the same handle, which is no longer live, and no other
    handle has been opened.  Started inside a session it raises
    RuntimeError and leaves the session as it was. *)
Theorem compute_quality_scoped (frame_interval : Z) (s : State) :
  (closed s ->
   closed (snd (compute_quality frame_interval s)) /\
   incl (live (world (snd (compute_quality frame_interval s))))
        (live (world s)) /\
   ((disk (world s) (filename (self s)) = Unreadable /\
     trace (world (snd (compute_quality frame_interval s))) =
       trace (world s)) \/
    exists h,
      trace (world (snd (compute_quality frame_interval s))) =
        Closed h :: Opened h :: trace (world s) /\
      ~ In h (live (world (snd (compute_quality frame_interval s)))))) /\
  (forall h, _openfile (self s) = Some h ->
     compute_quality frame_interval s = (inl RuntimeError, s)).
Proof.
  unfold compute_quality. split.
  - intros Hc.
    match goal with |- context [with_self ?b s] =>
      assert (Hk : keeps_session b);
      [|destruct (with_self_closed b s Hk Hc) as (H1 & H2 & _ & H3);
        split; [exact H1|split; [exact H2|exact H3]]] end.
    apply keeps_session_bind; [apply keeps_session_framerange|].
    intros all. apply keeps_session_bind; [now intros s0 h _|].
    intros frames. apply keeps_session_quality_loop.
  - intros h Ho. now apply with_self_in_session with (h := h).
Qed.

Lemma compute_quality_scoped_witness :
  trace (world (snd (compute_quality 0 (reader_on sparse_rows)))) =
    [Closed 0%nat; Opened 0%nat] /\
  compute_quality 10 (session_on sparse_rows) =
    (inl RuntimeError, session_on sparse_rows).
Proof.
  split.
  - destruct (proj1 (compute_quality_scoped 0 (reader_on sparse_rows))
                    eq_refl) as (_ & _ & [[H _]|(h & H & _)]).
    + discriminate H.
    + reflexivity.
  - apply (proj2 (compute_quality_scoped 10 (session_on sparse_rows))
                 0%nat). reflexivity.
Defined.

Lemma open_tracks_closed_tracks {A} (body : M A) s rows :
  pure_body body -> closed s ->
  disk (world s) (filename (self s)) = Tracks rows ->
  snd (_open_tracks body s) =
  mkState (mkBigTracks (filename (self s)) None None)
          (close (fresh (world s))
                 (mkWorld (disk (world s))
                          (fresh (world s) :: live (world s))
                          (Opened (fresh (world s)) :: trace (world s)))).
Proof.
  intros Hb Hc Hd. unfold closed in Hc. unfold _open_tracks, with_self.
  rewrite Hc, (enter_when_closed s rows Hc Hd).
  match goal with |- context [body ?st] =>
    pose proof (Hb st) as Hp; destruct (body st) as [r s2] end.
  cbn in Hp. subst s2. reflexivity.
Qed.

Lemma after_closed_tracks op s rows :
  closed s -> disk (world s) (filename (self s)) = Tracks rows ->
  after op s =
  mkState (mkBigTracks (filename (self s)) None None)
          (close (fresh (world s))
                 (mkWorld (disk (world s))
                          (fresh (world s) :: live (world s))
                          (Opened (fresh (world s)) :: trace (world s)))).
Proof.
  intros Hc Hd. destruct op; cbn [after];
    unfold get_frame, query, get_all, maxframe, framerange;
    apply open_tracks_closed_tracks with (rows := rows);
    auto using query_body_pure, get_all_body_pure, table_frame_pure,
               framerange_body_pure.
Qed.

Lemma after_in_session op s h :
  _openfile (self s) = Some h -> after op s = s.
Proof.
  intros Ho. destruct op; cbn [after];
    unfold get_frame, query, get_all, maxframe, framerange;
    apply open_tracks_session with (h := h);
    auto using query_body_pure, get_all_body_pure, table_frame_pure,
               framerange_body_pure.
Qed.

Lemma run_all_in_session ops s h :
  _openfile (self s) = Some h -> run_all ops s = s.
Proof.
  intros Ho. unfold run_all. induction ops as [|op ops IH]; [reflexivity|].
  cbn. now rewrite (after_in_session op s h Ho).
Qed.

Lemma run_all_closed ops :
  forall s rows,
    closed s -> disk (world s) (filename (self s)) = Tracks rows ->
    len (trace (world (run_all ops s))) =
      len (trace (world s)) + 2 * len ops /\
    closed (run_all ops s).
Proof.
  induction ops as [|op ops IH]; intros s rows Hc Hd.
  - cbn. split; [unfold len; cbn; lia|exact Hc].
  - unfold run_all in *. cbn [fold_left].
    rewrite (after_closed_tracks op s rows Hc Hd).
    match goal with |- context [fold_left _ ops ?st] =>
      destruct (IH st rows eq_refl Hd) as [Hl Hcl] end.
    split; [|exact Hcl]. rewrite Hl. unfold len.
    cbn [world trace close List.length]. lia.
Qed.

(** Any number of read operations inside one [with] block open the file
    once and close it once; the same operations issued on a closed
    reader open and close it once each. *)
Theorem session_opens_once
        (ops : list read_op) (s : State) (rows : list TrackPoint) :
  closed s ->
  disk (world s) (filename (self s)) = Tracks rows ->
  trace (world (snd (with_self (in_block ops) s))) =
    Closed (fresh (world s)) :: Opened (fresh (world s)) :: trace (world s) /\
  closed (snd (with_self (in_block ops) s)) /\
  len (trace (world (run_all ops s))) = len (trace (world s)) + 2 * len ops /\
  closed (run_all ops s).
Proof.
  intros Hc Hd. split; [|split; [|now apply run_all_closed with (rows := rows)]].
  - unfold with_self, in_block. unfold closed in Hc.
    rewrite (enter_when_closed s rows Hc Hd).
    rewrite run_all_in_session with (h := fresh (world s)) by reflexivity.
    reflexivity.
  - unfold with_self, in_block. unfold closed in Hc.
    rewrite (enter_when_closed s rows Hc Hd).
    rewrite run_all_in_session with (h := fresh (world s)) by reflexivity.
    reflexivity.
Qed.

Lemma session_opens_once_witness :
  trace (world (snd (with_self
                       (in_block [op_get_frame 1; op_maxframe; op_get_all])
                       (reader_on demo_rows)))) =
  [Closed 0%nat; Opened 0%nat].
Proof.
  apply (session_opens_once [op_get_frame 1; op_maxframe; op_get_all]
                            (reader_on demo_rows) demo_rows); reflexivity.
Defined.

(** ** The diagnostics table *)

Lemma conserved_bounds df ref :
  0 <= conserved df ref <= len (particles df).
Proof.
  unfold conserved, len. split; [lia|].
  apply inj_le. apply filter_length_le.
Qed.

(** Under the conditions in which [compute_quality] returns its table
    of counts (closed reader, non-empty table, each frame holding a
    particle at most once, frame numbers below 2^24 in magnitude,
    non-zero interval), no row keeps its initial -1: in every row
    [Nconserved] lies between 0 and [N], and a sampled frame number that
    no stored row carries is recorded with [N] = 0 and
    [Nconserved] = 0. *)
Theorem compute_quality_rows_filled
        (s : State) (rows : list TrackPoint) (frame_interval : Z) (r : QRow) :
  closed s ->
  disk (world s) (filename (self s)) = Tracks rows ->
  rows <> [] ->
  frame_interval <> 0 ->
  unique_particles rows ->
  exact_frames rows ->
  In r (table_of (fst (compute_quality frame_interval s))) ->
  0 <= Nconserved r <= N r /\
  ((forall tp, In tp rows -> tp_frame tp <> q_frame r) ->
   N r = 0 /\ Nconserved r = 0).
Proof.
  intros Hc Hd Hne Hk Hu Hx Hr.
  destruct (compute_quality_closed_form s rows frame_interval
              Hc Hd Hne Hk Hu Hx)
    as (all & frames & s' & _ & _ & E & _).
  rewrite E in Hr. cbn [fst table_of] in Hr.
  destruct (in_quality_rows rows _ frames r Hr) as [HN HC].
  pose proof (conserved_bounds (snapshot (q_frame r) rows)
                match frames with f :: _ => snapshot f rows | [] => [] end)
    as Hb.
  rewrite <- HC, <- HN in Hb. split; [exact Hb|].
  intros Hgap.
  assert (Hz : N r = 0).
  { rewrite HN. unfold snapshot.
    replace (filter _ rows) with (@nil TrackPoint); [reflexivity|].
    symmetry. clear - Hgap. induction rows as [|tp rows IH]; [reflexivity|].
    cbn. destruct (tp_frame tp =? q_frame r) eqn:Ef.
    - apply Z.eqb_eq in Ef. elim (Hgap tp); [now left|exact Ef].
    - apply IH. intros tp' H. apply Hgap. now right. }
  split; [exact Hz|lia].
Qed.

Lemma compute_quality_rows_filled_witness :
  In (mkQRow 3 0 0) (table_of (fst (compute_quality 3 (reader_on sparse_rows))))
  /\ 0 <= Nconserved (mkQRow 3 0 0) <= N (mkQRow 3 0 0)
  /\ ((forall tp, In tp sparse_rows -> tp_frame tp <> q_frame (mkQRow 3 0 0)) ->
      N (mkQRow 3 0 0) = 0 /\ Nconserved (mkQRow 3 0 0) = 0).
Proof.
  assert (Hin : In (mkQRow 3 0 0)
                   (table_of (fst (compute_quality 3 (reader_on sparse_rows)))))
    by (vm_compute; auto).
  split; [exact Hin|].
  apply (compute_quality_rows_filled (reader_on sparse_rows) sparse_rows 3
           (mkQRow 3 0 0));
    [reflexivity|reflexivity|discriminate|discriminate
    |exact sparse_rows_unique|exact sparse_rows_exact|exact Hin].
Defined.

(** * Cropping frames (xform.py) *)

(** The bounds are exclusive: the rows kept are exactly the rows of the
    frame that lie strictly inside the box, so a row on an edge is
    dropped. *)
Theorem dfcrop_strictly_inside
        (df : DataFrame) (xmin xmax ymin ymax : Q) (xcol ycol : colname)
        (r : Row) :
  In r (dfcrop df (Finite xmin) (Finite xmax) (Finite ymin) (Finite ymax)
               xcol ycol) <->
  In r df /\
  (xmin < col_of xcol r)%Q /\ (col_of xcol r < xmax)%Q /\
  (ymin < col_of ycol r)%Q /\ (col_of ycol r < ymax)%Q.
Proof.
  unfold dfcrop. rewrite filter_In. cbn [above below].
  destruct (Qlt_le_dec xmin (col_of xcol r)) as [A|A];
  destruct (Qlt_le_dec (col_of xcol r) xmax) as [B|B];
  destruct (Qlt_le_dec ymin (col_of ycol r)) as [C|C];
  destruct (Qlt_le_dec (col_of ycol r) ymax) as [D|D]; cbn;
    (split; [intros [H E]; first [discriminate E | tauto]
            |intros (H & A' & B' & C' & D');
             first [ tauto
                   | exfalso; apply (Qlt_not_le _ _ A' A)
                   | exfalso; apply (Qlt_not_le _ _ B' B)
                   | exfalso; apply (Qlt_not_le _ _ C' C)
                   | exfalso; apply (Qlt_not_le _ _ D' D) ]]).
Qed.

Lemma filter_swap {A} (f g : A -> bool) l :
  filter f (filter g l) = filter g (filter f l).
Proof.
  induction l as [|a l IH]; [reflexivity|]. cbn.
  destruct (g a) eqn:G, (f a) eqn:F; cbn; rewrite ?G, ?F, IH; reflexivity.
Qed.

Lemma filter_twice {A} (f : A -> bool) l :
  filter f (filter f l) = filter f l.
Proof.
  induction l as [|a l IH]; [reflexivity|]. cbn.
  destruct (f a) eqn:F; cbn; rewrite ?F, IH; reflexivity.
Qed.

(** Cropping twice with the same box is cropping once, and two crops,
    on any boxes and columns, give the same frame in either order. *)
Theorem dfcrop_composes
        (df : DataFrame) (a b c d a' b' c' d' : bound)
        (xcol ycol xcol' ycol' : colname) :
  dfcrop (dfcrop df a b c d xcol ycol) a b c d xcol ycol =
    dfcrop df a b c d xcol ycol /\
  dfcrop (dfcrop df a b c d xcol ycol) a' b' c' d' xcol' ycol' =
    dfcrop (dfcrop df a' b' c' d' xcol' ycol') a b c d xcol ycol.
Proof.
  unfold dfcrop. split; [apply filter_twice|apply filter_swap].
Qed.
